(** * Sonde: the decoding core, verified against its TypeScript source

    A shallow embedding of the functions of the AT Protocol explorer that
    decode and buffer stream data:
    - [Cbor]      [findCborBoundary], [decodeFirehoseFrame]
                  (firehose protocol handler),
    - [Ring]      [EventBuffer] (lib/websocket.ts),
    - [Jetstream] [parseJetstreamEvent] (Jetstream client),
    - [Tid]       [tidToDate], [isTid] (record helpers),
    - [Detect]    [detectEncoding] and its predicates (decoding utilities),
    - [JsMap], [Lru], [Memo]  [LRUCache], [memoizeAsync]
                  (memoization utilities),
    - [RingOps]   the other methods of [EventBuffer],
    - [Memoize], [DecodeCache]  [memoize], and [decodeValue] with
                  [getCacheKey] (decoding utilities),
    - [Reconnect] [createReconnectingWebSocket] (lib/websocket.ts),
    - [Str], [AtUri]  [parseAtUri], [buildAtUri], [getRkeyFromUri],
                  [getCollectionFromUri] (record helpers),
    - [TidCase]   [isTid] with [tidToDate],
    - [Commit]    [parseCommitEvent], [formatCommitEvent],
                  [hasNavigableOps], [getOperationNavigationPath]
                  (firehose protocol handler),
    - [Labels]    [groupLabelsBySource], [groupLabelsBySubject],
    - [Format], [Hex]  [truncate], [truncateDid], [bytesToHex].

    The first part holds the model and the notions the statements use, the
    second part the theorems.

    Numbers are JavaScript numbers: integers are kept in [Z], the 32-bit
    operators wrap, and a BigInt turned into a double is rounded. Code that
    can throw returns in an error type; code that can fail to terminate
    takes a step budget. *)

From Stdlib Require Import ZArith Lia List Bool String Ascii QArith.
From Stdlib Require Import Strings.Byte Sorting.Sorted.
From stdpp Require Import base tactics option list gmap strings.

Local Open Scope Z_scope.

(** ** JavaScript numeric operators used by the sources *)
Module Js.

(** ToInt32: the operand conversion of [<<], [>>], [|] and [&]. *)
Definition toInt32 (z : Z) : Z := (z + 2 ^ 31) mod 2 ^ 32 - 2 ^ 31.

Definition shl (a n : Z) : Z := toInt32 (Z.shiftl (toInt32 a) n).
Definition shr (a n : Z) : Z := Z.shiftr (toInt32 a) n.
Definition bor (a b : Z) : Z := Z.lor (toInt32 a) (toInt32 b).
Definition band (a b : Z) : Z := Z.land (toInt32 a) (toInt32 b).

(** Nearest double of an integer (ties to even): [Number(bigint)], and the
    result of adding two integer-valued doubles. *)
Definition round53 (z : Z) : Z :=
  let a := Z.abs z in
  if a <? 2 ^ 53 then z
  else
    let e := Z.log2 a - 52 in
    let q := a / 2 ^ e in
    let r := a mod 2 ^ e in
    let half := 2 ^ (e - 1) in
    let q' := if (half <? r) || ((r =? half) && Z.odd q) then q + 1 else q in
    Z.sgn z * (q' * 2 ^ e).

(** [a + b] on integer-valued doubles. *)
Definition add (a b : Z) : Z := round53 (a + b).

(** [u8 b]: the number stored in one element of a [Uint8Array]. *)
Definition u8 (b : byte) : Z := Z.of_N (Byte.to_N b).

(** [bytes[pos]]: [None] is [undefined] (index out of range). *)
Definition at_ (bytes : list byte) (pos : Z) : option Z :=
  if pos <? 0 then None else u8 <$> bytes !! Z.to_nat pos.

(** An operand of a 32-bit operator: [undefined] converts to 0. *)
Definition int32_of (o : option Z) : Z := default 0 o.

(** [TypedArray.prototype.slice(start, end)] on integer-valued arguments. *)
Definition rel_index (len i : Z) : Z :=
  if i <? 0 then Z.max (len + i) 0 else Z.min i len.

Definition slice (bytes : list byte) (start end_ : Z) : list byte :=
  let len := Z.of_nat (length bytes) in
  let first := rel_index len start in
  let final := rel_index len end_ in
  take (Z.to_nat (Z.max (final - first) 0)) (drop (Z.to_nat first) bytes).

Definition slice_from (bytes : list byte) (start : Z) : list byte :=
  slice bytes start (Z.of_nat (length bytes)).

End Js.

(** ** Firehose protocol handler: the boundary between two concatenated
    CBOR values *)
Module Cbor.
Import Js.

(** What a call can do: return with the cursor at [pos], throw, or still be
    running when the iteration budget is used up. *)
Inductive outcome : Type :=
| Done (pos : Z)
| Throw
| Timeout.

Definition bind (o : outcome) (k : Z -> outcome) : outcome :=
  match o with
  | Done pos => k pos
  | Throw => Throw
  | Timeout => Timeout
  end.

(** [while (bytes[pos] !== 0xff) body();] *)
Fixpoint until_break (n : nat) (body : Z -> outcome) (bytes : list byte)
    (pos : Z) : outcome :=
  if decide (at_ bytes pos = Some 255) then Done pos
  else match n with
       | O => Timeout
       | S n => bind (body pos) (until_break n body bytes)
       end.

(** [for (let i = 0n; i < argValue; i++) body();] *)
Fixpoint times (n : nat) (body : Z -> outcome) (i argValue pos : Z)
    : outcome :=
  if i <? argValue then
    match n with
    | O => Timeout
    | S n => bind (body pos) (times n body (i + 1) argValue)
    end
  else Done pos.

(** [for (let i = 0; i < 8; i++) argValue = (argValue << 8n) | BigInt(bytes[pos++]);]
    [BigInt(undefined)] throws a TypeError: [None]. *)
Fixpoint read8 (k : nat) (bytes : list byte) (argValue pos : Z)
    : option (Z * Z) :=
  match k with
  | O => Some (argValue, pos)
  | S k =>
      match at_ bytes pos with
      | None => None
      | Some b => read8 k bytes (Z.lor (Z.shiftl argValue 8) b) (add pos 1)
      end
  end.

(** The argument of the initial byte ([additionalInfo] 0..27; the reserved
    28..30 leave [argValue = 0n]), or the indefinite-length marker 31. *)
Inductive argument : Type :=
| Arg (argValue pos : Z)
| Indefinite
| ArgThrow.

Definition read_argument (bytes : list byte) (additionalInfo pos : Z)
    : argument :=
  if additionalInfo <? 24 then Arg additionalInfo pos
  else if additionalInfo =? 24 then
    match at_ bytes pos with
    | None => ArgThrow
    | Some b => Arg b (add pos 1)
    end
  else if additionalInfo =? 25 then
    Arg (bor (shl (int32_of (at_ bytes pos)) 8)
             (int32_of (at_ bytes (add pos 1))))
        (add pos 2)
  else if additionalInfo =? 26 then
    Arg (bor (bor (bor (shl (int32_of (at_ bytes pos)) 24)
                       (shl (int32_of (at_ bytes (add pos 1))) 16))
                  (shl (int32_of (at_ bytes (add pos 2))) 8))
             (int32_of (at_ bytes (add pos 3))))
        (add pos 4)
  else if additionalInfo =? 27 then
    match read8 8 bytes 0 pos with
    | None => ArgThrow
    | Some (argValue, pos) => Arg argValue pos
    end
  else if additionalInfo =? 31 then Indefinite
  else Arg 0 pos.

(** The branch [additionalInfo === 31]: read until the break byte. *)
Definition indefinite (fuel : nat) (self : Z -> outcome) (bytes : list byte)
    (majorType pos : Z) : outcome :=
  if (majorType =? 2) || (majorType =? 3) || (majorType =? 4) then
    bind (until_break fuel self bytes pos) (fun p => Done (add p 1))
  else if majorType =? 5 then
    bind (until_break fuel (fun p => bind (self p) self) bytes pos)
         (fun p => Done (add p 1))
  else Done pos.

(** The [switch (majorType)]. *)
Definition process (fuel : nat) (self : Z -> outcome)
    (majorType argValue pos : Z) : outcome :=
  if (majorType =? 2) || (majorType =? 3) then
    Done (add pos (round53 argValue))
  else if majorType =? 4 then times fuel self 0 argValue pos
  else if majorType =? 5 then
    times fuel (fun p => bind (self p) self) 0 argValue pos
  else if majorType =? 6 then self pos
  else Done pos.

(** [readValue()], the closure over [bytes] and the cursor [pos]; every call
    and every loop iteration takes one unit of [fuel]. *)
Fixpoint readValue (fuel : nat) (bytes : list byte) (pos : Z) : outcome :=
  match fuel with
  | O => Timeout
  | S fuel =>
      if Z.of_nat (length bytes) <=? pos then Throw
      else
        let initial := int32_of (at_ bytes pos) in
        let pos := add pos 1 in
        let majorType := shr initial 5 in
        let additionalInfo := band initial 31 in
        match read_argument bytes additionalInfo pos with
        | ArgThrow => Throw
        | Indefinite =>
            indefinite fuel (readValue fuel bytes) bytes majorType pos
        | Arg argValue pos =>
            process fuel (readValue fuel bytes) majorType argValue pos
        end
  end.

Definition findCborBoundary (fuel : nat) (bytes : list byte) : outcome :=
  readValue fuel bytes 0.

(** [decodeFirehoseFrame]: the decoder of one CBOR value is the library
    [@ipld/dag-cbor] ([None]: it throws); [op_of header] is [header.op] when
    [header] is truthy and [typeof header.op === "number"]. *)
Record FirehoseFrame (value : Type) : Type := mkFrame {
  op : Z;
  t : option value;
  body : value
}.
Arguments mkFrame {value} _ _ _.

(** A call returns ([null] is [None]) or is still running. *)
Inductive result (A : Type) : Type :=
| Returned (a : A)
| Running.
Arguments Returned {A} _.
Arguments Running {A}.

(** The two [slice] calls of [decodeFirehoseFrame]. *)
Definition split_at (bytes : list byte) (boundary : Z)
    : list byte * list byte :=
  (slice bytes 0 boundary, slice_from bytes boundary).

Section Frame.
Context {value : Type}.
Variable decode : list byte -> option value.
Variable op_of : value -> option Z.
Variable t_of : value -> option value.

Definition decodeFirehoseFrame (fuel : nat) (data : list byte)
    : result (option (FirehoseFrame value)) :=
  match findCborBoundary fuel data with
  | Timeout => Running
  | Throw => Returned None
  | Done boundary =>
      let (headerBytes, bodyBytes) := split_at data boundary in
      match decode headerBytes with
      | None => Returned None
      | Some header =>
          match op_of header with
          | None => Returned None
          | Some o =>
              match decode bodyBytes with
              | None => Returned None
              | Some b => Returned (Some (mkFrame o (t_of header) b))
              end
          end
      end
  end.
End Frame.

(** *** Well-formed encodings of one data item (RFC 8949, section 3)

    The initial byte carries the major type in its high three bits and the
    additional information in its low five bits. *)
Definition major (b : byte) : Z := u8 b / 32.
Definition info (b : byte) : Z := u8 b mod 32.

(** Big-endian value of the bytes that follow the initial byte. *)
Definition be (l : list byte) : Z :=
  fold_left (fun a x => a * 256 + u8 x) l 0.

(** [head b n ext]: initial byte [b] followed by [ext] carries argument [n]. *)
Inductive head (b : byte) : Z -> list byte -> Prop :=
| head_0 : info b < 24 -> head b (info b) []
| head_1 x0 : info b = 24 -> head b (be [x0]) [x0]
| head_2 x1 x0 : info b = 25 -> head b (be [x1; x0]) [x1; x0]
| head_4 x3 x2 x1 x0 :
    info b = 26 -> head b (be [x3; x2; x1; x0]) [x3; x2; x1; x0]
| head_8 x7 x6 x5 x4 x3 x2 x1 x0 :
    info b = 27 ->
    head b (be [x7; x6; x5; x4; x3; x2; x1; x0])
         [x7; x6; x5; x4; x3; x2; x1; x0].

(** The chunks of an indefinite-length string: definite-length strings of
    the same major type. *)
Inductive chunks (mt : Z) : list byte -> Prop :=
| chunks_nil : chunks mt []
| chunks_cons b n ext payload rest :
    major b = mt -> head b n ext -> Z.of_nat (length payload) = n ->
    chunks mt rest -> chunks mt (b :: ext ++ payload ++ rest).

(** [item bs]: [bs] is the encoding of exactly one data item, in any of its
    encodings (shortest form is not required). *)
Inductive item : list byte -> Prop :=
| item_plain b n ext :
    major b = 0 \/ major b = 1 \/ major b = 7 -> head b n ext ->
    item (b :: ext)
| item_string b n ext payload :
    major b = 2 \/ major b = 3 -> head b n ext ->
    Z.of_nat (length payload) = n -> item (b :: ext ++ payload)
| item_string_indef b cs :
    major b = 2 \/ major b = 3 -> info b = 31 -> chunks (major b) cs ->
    item (b :: cs ++ [xff])
| item_array b n ext elems :
    major b = 4 -> head b (Z.of_nat n) ext -> items n elems ->
    item (b :: ext ++ elems)
| item_array_indef b n elems :
    major b = 4 -> info b = 31 -> items n elems ->
    item (b :: elems ++ [xff])
| item_map b n ext entries :
    major b = 5 -> head b (Z.of_nat n) ext -> pairs n entries ->
    item (b :: ext ++ entries)
| item_map_indef b n entries :
    major b = 5 -> info b = 31 -> pairs n entries ->
    item (b :: entries ++ [xff])
| item_tag b n ext v :
    major b = 6 -> head b n ext -> item v -> item (b :: ext ++ v)
with items : nat -> list byte -> Prop :=
| items_nil : items O []
| items_cons n a rest : item a -> items n rest -> items (S n) (a ++ rest)
with pairs : nat -> list byte -> Prop :=
| pairs_nil : pairs O []
| pairs_cons n k v rest :
    item k -> item v -> pairs n rest -> pairs (S n) (k ++ v ++ rest).

Scheme item_min := Minimality for item Sort Prop
  with items_min := Minimality for items Sort Prop
  with pairs_min := Minimality for pairs Sort Prop.
Combined Scheme item_items_pairs_ind from item_min, items_min, pairs_min.

(** *** Statements about the scan *)

(** The argument as the scanner sees it: the four-byte form goes through
    32-bit signed operators. *)
Definition seen (b : byte) (n : Z) : Z :=
  if info b =? 26 then toInt32 n else n.




(** A byte string whose four-byte length field is [0x80000000]. *)
Definition long_string (payload : list byte) : list byte :=
  x5a :: x80 :: x00 :: x00 :: x00 :: payload.

Definition zeros : list byte := replicate (Z.to_nat (2 ^ 31)) x00.

(** A truncated frame: an indefinite-length array whose first element is a
    byte string announcing [0xfffffffb] bytes. *)
Definition truncated_frame : list byte := [x9f; x5a; xff; xff; xff; xfb].

End Cbor.


(** ** lib/websocket.ts: the event ring buffer *)
Module Ring.
Local Open Scope nat_scope.

(** [array[i] = x] on a JavaScript array: in range it overwrites, past the
    end it extends the array, leaving holes. A hole reads as [undefined],
    here [None]. *)
Definition array_set {A : Type} (l : list (option A)) (i : nat) (x : A)
    : list (option A) :=
  if decide (i < length l) then <[i := Some x]> l
  else l ++ replicate (i - length l) None ++ [Some x].

(** [array[i]]: a hole and an index out of range both read as [undefined]. *)
Definition array_get {A : Type} (l : list (option A)) (i : nat) : option A :=
  mjoin (l !! i).

Section EventBuffer.
Context {T : Type}.

(** The fields of [class EventBuffer<T>]. The constructor is given a
    positive integer; [x % 0] is [NaN] in JavaScript and is not modelled. *)
Record EventBuffer : Type := mkBuffer {
  buffer : list (option T);
  head : nat;
  tail : nat;
  count : nat;
  maxSize : nat
}.

(** [constructor(maxSize)] *)
Definition empty_buffer (maxSize : nat) : EventBuffer :=
  mkBuffer (replicate maxSize None) 0 0 0 maxSize.

Definition push (b : EventBuffer) (event : T) : EventBuffer :=
  let buffer' := array_set (buffer b) (head b) event in
  let head' := (head b + 1) mod maxSize b in
  if decide (count b < maxSize b) then
    mkBuffer buffer' head' (tail b) (count b + 1) (maxSize b)
  else
    mkBuffer buffer' head' ((tail b + 1) mod maxSize b) (count b)
             (maxSize b).

Definition pushMany (b : EventBuffer) (events : list T) : EventBuffer :=
  fold_left push events b.

(** [result[i] = this.buffer[(this.tail + i) % this.maxSize]] for
    [i < this.count]. *)
Definition getAll (b : EventBuffer) : list (option T) :=
  if decide (count b = 0) then []
  else (fun i => array_get (buffer b) ((tail b + i) mod maxSize b))
         <$> seq 0 (count b).

(** The state after [events] were pushed, one by one, into a new buffer. *)
Definition pushed (N : nat) (events : list T) : EventBuffer :=
  pushMany (empty_buffer N) events.

(** What ties a buffer to the sequence [xs] pushed so far. *)
Record tracks (N : nat) (b : EventBuffer) (xs : list T) : Prop := mkTracks {
  tracks_maxSize : maxSize b = N;
  tracks_length : length (buffer b) = N;
  tracks_count : count b = length xs `min` N;
  tracks_head : head b = length xs mod N;
  tracks_tail : tail b = (length xs - count b) mod N;
  tracks_slots : forall j,
    length xs - count b <= j < length xs ->
    buffer b !! (j mod N) = Some (xs !! j)
}.
End EventBuffer.
Arguments EventBuffer : clear implicits.

End Ring.

(** ** JavaScript values as the decoders see them *)
Module JsValue.
Local Open Scope string_scope.

(** The values [JSON.parse] and the CBOR decoder produce, plus [undefined]
    and [Uint8Array]. A string is its sequence of code units; a number is
    kept as a rational ([JSON.parse] yields no [NaN]). *)
#[local] Set Warnings "-register-all".
Inductive value : Type :=
| Undefined
| Null
| Bool (b : bool)
| Num (q : Q)
| Str (s : string)
| Arr (elems : list value)
| Obj (props : list (string * value))
| Bytes (bs : list byte).

(** A computation that may throw. *)
Inductive attempt (A : Type) : Type :=
| Ok (a : A)
| Thrown.
Arguments Ok {A} _.
Arguments Thrown {A}.

Definition andThen {A B : Type} (x : attempt A) (k : A -> attempt B)
    : attempt B :=
  match x with
  | Ok a => k a
  | Thrown => Thrown
  end.

#[export] Instance attempt_bind : MBind attempt :=
  fun A B k x => andThen x k.

(** ToBoolean *)
Definition truthy (v : value) : bool :=
  match v with
  | Undefined | Null => false
  | Bool b => b
  | Num q => negb (Qeq_bool q 0)
  | Str s => negb (s =? "")
  | Arr _ | Obj _ | Bytes _ => true
  end.

Definition typeof (v : value) : string :=
  match v with
  | Undefined => "undefined"
  | Null | Arr _ | Obj _ | Bytes _ => "object"
  | Bool _ => "boolean"
  | Num _ => "number"
  | Str _ => "string"
  end.

(** The own property [name] of an object literal. *)
Fixpoint own (props : list (string * value)) (name : string) : option value :=
  match props with
  | [] => None
  | (k, v) :: rest => if k =? name then Some v else own rest name
  end.

(** [v.name], for the names read by this code ([did], [time_us], [kind],
    [$type], [ref], [uri], [cid]), which no built-in prototype defines:
    reading a property of [null] or [undefined] throws a TypeError, a
    missing property reads as [undefined]. *)
Definition get (v : value) (name : string) : attempt value :=
  match v with
  | Undefined | Null => Thrown
  | Obj props => Ok (default Undefined (own props name))
  | Bool _ | Num _ | Str _ | Arr _ | Bytes _ => Ok Undefined
  end.

End JsValue.

(** ** Jetstream client: validation of a message *)
Module Jetstream.
Import JsValue.
Local Open Scope string_scope.

(** [if (!event.did || !event.time_us || !event.kind) return null; return event;] *)
Definition validate (event : value) : attempt (option value) :=
  did ← get event "did";
  if negb (truthy did) then Ok None
  else
    time_us ← get event "time_us";
    if negb (truthy time_us) then Ok None
    else
      kind ← get event "kind";
      if negb (truthy kind) then Ok None else Ok (Some event).

(** [parseJetstreamEvent(data)], given the outcome of [JSON.parse(data)]
    ([Thrown]: the text is not valid JSON). The [catch] turns every
    exception into [null], here [None]. *)
Definition parseJetstreamEvent (parsed : attempt value) : option value :=
  match event ← parsed; validate event with
  | Ok r => r
  | Thrown => None
  end.

(** The parsed value is an object with an own property [name]. *)
Definition present (v : value) (name : string) : Prop :=
  match v with
  | Obj props => own props name <> None
  | _ => False
  end.

(** The parsed value is an object whose property [name] is truthy: not
    [null], [false], [0] or the empty string. *)
Definition present_truthy (v : value) (name : string) : Prop :=
  match v with
  | Obj props => exists x, own props name = Some x /\ truthy x = true
  | _ => False
  end.

(** The value of [{"did":"did:plc:a","time_us":0,"kind":"commit"}]. *)
Definition zero_time_event : value :=
  Obj [("did", Str "did:plc:a"); ("time_us", Num 0); ("kind", Str "commit")].

End Jetstream.

(** ** Record helpers: timestamp identifiers *)
Module Tid.
Local Open Scope string_scope.

Definition TID_CHARS : string := "234567abcdefghijklmnopqrstuvwxyz".

(** [c.toLowerCase()] on one code unit below 256: the ASCII capitals and the
    Latin-1 capitals have a lower-case partner 32 places up. *)
Definition toLowerCase (c : ascii) : ascii :=
  let n := N_of_ascii c in
  if ((65 <=? n) && (n <=? 90)
      || (192 <=? n) && (n <=? 222) && negb (n =? 215))%N
  then ascii_of_N (n + 32) else c.

(** [s.indexOf(c)] for a one-character [c]: first position, or -1. *)
Fixpoint indexOf_from (s : string) (c : ascii) (i : Z) : Z :=
  match s with
  | EmptyString => -1
  | String a rest => if Ascii.eqb a c then i else indexOf_from rest c (i + 1)
  end.

Definition indexOf (s : string) (c : ascii) : Z := indexOf_from s c 0.

(** [s.includes(c)] for a one-character [c]. *)
Definition includes (s : string) (c : ascii) : bool :=
  negb (indexOf s c =? -1)%Z.

(** The loop of [tidToDate]:
    [timestamp = timestamp * 32n + BigInt(index)], leaving with [null] on a
    character outside the alphabet. *)
Fixpoint decode_chars (chars : string) (timestamp : Z) : option Z :=
  match chars with
  | EmptyString => Some timestamp
  | String char rest =>
      let index := indexOf TID_CHARS (toLowerCase char) in
      if (index =? -1)%Z then None
      else decode_chars rest (timestamp * 32 + index)
  end.

(** [tidToDate(tid)]: the time value, in milliseconds, of the returned
    [Date]; [None] is [null]. *)
Definition tidToDate (tid : string) : option Z :=
  if (tid =? "") || negb (String.length tid =? 13)%nat then None
  else
    let timestampChars := substring 0 11 tid in
    match decode_chars timestampChars 0 with
    | None => None
    | Some timestamp => Some (Js.round53 (Z.quot timestamp 1000))
    end.

Definition isTid (str : string) : bool :=
  if negb (String.length str =? 13)%nat then false
  else forallb (fun c => includes TID_CHARS (toLowerCase c))
               (list_ascii_of_string str).

(** A character of the alphabet, and a valid timestamp key: 13 of them. *)
Definition alphabet (c : ascii) : Prop :=
  In c (list_ascii_of_string TID_CHARS).

Definition valid_chars (s : string) : Prop :=
  Forall alphabet (list_ascii_of_string s).

Definition valid_tid (tid : string) : Prop :=
  String.length tid = 13%nat /\ valid_chars tid.

(** The digit of a character, and the number that a sequence of characters
    spells in base 32, most significant first. *)
Definition digit (c : ascii) : Z := indexOf TID_CHARS c.

Fixpoint base32 (chars : string) : Z :=
  match chars with
  | EmptyString => 0
  | String c rest =>
      digit c * 32 ^ Z.of_nat (String.length rest) + base32 rest
  end.

End Tid.

(** ** Decoding utilities: the encoding classifier *)
Module Detect.
Import JsValue.
Local Open Scope string_scope.

Inductive EncodingType : Type :=
| at_uri | did | blob_ref | strong_ref | tid | datetime | cid | base64
| bytes | unknown.

(** *** Character classes and the three regular expressions *)
Definition code (c : ascii) : N := N_of_ascii c.

Definition in_range (lo hi : string) (c : ascii) : bool :=
  match lo, hi with
  | String l EmptyString, String h EmptyString =>
      ((code l <=? code c) && (code c <=? code h))%N
  | _, _ => false
  end.

(** [\d] *)
Definition is_digit (c : ascii) : bool := in_range "0" "9" c.

(** A class under the [i] flag: a character matches when it or its other
    ASCII case is in the class. *)
Definition upper (c : ascii) : ascii :=
  if in_range "a" "z" c then ascii_of_N (code c - 32) else c.
Definition lower (c : ascii) : ascii :=
  if in_range "A" "Z" c then ascii_of_N (code c + 32) else c.
Definition ignore_case (class : ascii -> bool) (c : ascii) : bool :=
  class c || class (upper c) || class (lower c).

(** [[1-9A-HJ-NP-Za-km-z]] *)
Definition base58_class (c : ascii) : bool :=
  in_range "1" "9" c || in_range "A" "H" c || in_range "J" "N" c
  || in_range "P" "Z" c || in_range "a" "k" c || in_range "m" "z" c.

(** [[a-z2-7]] *)
Definition base32_class (c : ascii) : bool :=
  in_range "a" "z" c || in_range "2" "7" c.

(** [[A-Za-z0-9+/]] *)
Definition base64_class (c : ascii) : bool :=
  in_range "A" "Z" c || in_range "a" "z" c || in_range "0" "9" c
  || Ascii.eqb c "+" || Ascii.eqb c "/".

(** A literal prefix under the [i] flag; the rest of the subject is
    returned. *)
Fixpoint literal_i (lit : list ascii) (s : list ascii)
    : option (list ascii) :=
  match lit, s with
  | [], _ => Some s
  | l :: lit', c :: s' =>
      if Ascii.eqb (upper l) (upper c) then literal_i lit' s' else None
  | _ :: _, [] => None
  end.

(** [/^(Qm[1-9A-HJ-NP-Za-km-z]{44}|b[a-z2-7]{58,}|bafy[a-z2-7]+)$/i] *)
Definition cid_regex (s : string) : bool :=
  let cs := list_ascii_of_string s in
  match literal_i (list_ascii_of_string "Qm") cs with
  | Some rest =>
      (length rest =? 44)%nat && forallb (ignore_case base58_class) rest
  | None => false
  end
  || match literal_i (list_ascii_of_string "b") cs with
     | Some rest =>
         (58 <=? length rest)%nat && forallb (ignore_case base32_class) rest
     | None => false
     end
  || match literal_i (list_ascii_of_string "bafy") cs with
     | Some rest =>
         (1 <=? length rest)%nat && forallb (ignore_case base32_class) rest
     | None => false
     end.

(** [/^\d{4}-\d{2}-\d{2}T\d{2}:\d{2}:\d{2}/] *)
Definition datetime_regex (s : string) : bool :=
  match list_ascii_of_string s with
  | y1 :: y2 :: y3 :: y4 :: d1 :: m1 :: m2 :: d2 :: a1 :: a2 :: t
    :: h1 :: h2 :: c1 :: n1 :: n2 :: c2 :: s1 :: s2 :: _ =>
      is_digit y1 && is_digit y2 && is_digit y3 && is_digit y4
      && Ascii.eqb d1 "-" && is_digit m1 && is_digit m2
      && Ascii.eqb d2 "-" && is_digit a1 && is_digit a2
      && Ascii.eqb t "T" && is_digit h1 && is_digit h2
      && Ascii.eqb c1 ":" && is_digit n1 && is_digit n2
      && Ascii.eqb c2 ":" && is_digit s1 && is_digit s2
  | _ => false
  end.

(** [/^[A-Za-z0-9+/]+=*$/]: a non-empty run of the class, then only [=]. *)
Fixpoint skip_class (class : ascii -> bool) (s : list ascii) : list ascii :=
  match s with
  | c :: s' => if class c then skip_class class s' else s
  | [] => []
  end.

Definition base64_regex (s : string) : bool :=
  match list_ascii_of_string s with
  | c :: rest =>
      base64_class c
      && forallb (fun x => Ascii.eqb x "=") (skip_class base64_class rest)
  | [] => false
  end.

(** *** The predicates *)
Definition is_string (v : value) : bool := typeof v =? "string".

Definition isAtUri (v : value) : bool :=
  match v with
  | Str s => String.prefix "at://" s
  | _ => false
  end.

Definition isDid (v : value) : bool :=
  match v with
  | Str s => String.prefix "did:" s
  | _ => false
  end.

Definition isCid (v : value) : bool :=
  match v with
  | Str s => cid_regex s
  | _ => false
  end.

(** [obj.$type === "blob" && !!obj.ref && typeof obj.ref === "object"] *)
Definition isBlobRef (v : value) : attempt bool :=
  if negb (truthy v) || negb (typeof v =? "object") then Ok false
  else
    ty ← get v "$type";
    match ty with
    | Str s =>
        if s =? "blob" then
          ref ← get v "ref";
          if truthy ref then
            ref' ← get v "ref"; Ok (typeof ref' =? "object")
          else Ok false
        else Ok false
    | _ => Ok false
    end.

(** [typeof obj.uri === "string" && obj.uri.startsWith("at://") &&
    typeof obj.cid === "string"] *)
Definition isStrongRef (v : value) : attempt bool :=
  if negb (truthy v) || negb (typeof v =? "object") then Ok false
  else
    uri ← get v "uri";
    match uri with
    | Str s =>
        if String.prefix "at://" s then
          cid ← get v "cid"; Ok (typeof cid =? "string")
        else Ok false
    | _ => Ok false
    end.

Definition isDatetime (v : value) : bool :=
  match v with
  | Str s => datetime_regex s
  | _ => false
  end.

Definition isBase64 (v : value) : bool :=
  match v with
  | Str s =>
      if (String.length s <? 20)%nat then false
      else base64_regex s && (String.length s mod 4 =? 0)%nat
  | _ => false
  end.

(** [value.every((v) => typeof v === "number" && v >= 0 && v <= 255)] *)
Definition small_number (v : value) : bool :=
  match v with
  | Num q => Qle_bool 0 q && Qle_bool q 255
  | _ => false
  end.

Definition isBytes (v : value) : bool :=
  match v with
  | Bytes _ => true
  | Arr elems => forallb small_number elems
  | _ => false
  end.

Definition detectEncoding (v : value) : attempt EncodingType :=
  if isAtUri v then Ok at_uri
  else if isDid v then Ok did
  else
    blob ← isBlobRef v;
    if (blob : bool) then Ok blob_ref
    else
      strong ← isStrongRef v;
      if (strong : bool) then Ok strong_ref
      else if match v with Str s => Tid.isTid s | _ => false end then Ok tid
      else if isDatetime v then Ok datetime
      else if isCid v then Ok cid
      else if isBase64 v then Ok base64
      else if isBytes v then Ok bytes
      else Ok unknown.

End Detect.

(** ** The built-in [Map], insertion ordered *)
Module JsMap.

(** The entries in insertion order; keys are unique. *)
Abbreviation t K E := (list (K * E)) (only parsing).

Section Map.
Context {K E : Type} `{EqDecision K}.
Implicit Types (m : t K E).

Fixpoint get m (key : K) : option E :=
  match m with
  | [] => None
  | (k, x) :: rest => if decide (k = key) then Some x else get rest key
  end.

Definition delete m (key : K) : t K E :=
  filter (fun p => p.1 <> key) m.

(** [set] keeps the position of a key that is present and appends a new
    one. *)
Fixpoint set m (key : K) (e : E) : t K E :=
  match m with
  | [] => [(key, e)]
  | (k, x) :: rest =>
      if decide (k = key) then (k, e) :: rest else (k, x) :: set rest key e
  end.

Definition keys m : list K := fst <$> m.

(** [m.keys().next().value]: [None] is [undefined], on an empty map. *)
Definition first_key m : option K := head (keys m).

Definition size m : Z := Z.of_nat (length m).
End Map.
End JsMap.

(** ** Memoization utilities: the LRU cache with expiry *)
Module Lru.
Section Cache.
Context {K V : Type} `{EqDecision K}.

(** [{ value, expires }] *)
Record entry : Type := mkEntry { value : V; expires : Z }.

(** The fields of [class LRUCache<K, V>]; times are milliseconds, as
    [Date.now()] returns them, and are passed in as [now]. *)
Record LRUCache : Type := mkCache {
  cache : JsMap.t K entry;
  maxSize : Z;
  ttl : Z
}.

Definition with_cache (c : LRUCache) (m : JsMap.t K entry) : LRUCache :=
  mkCache m (maxSize c) (ttl c).

(** [new LRUCache(maxSize, ttlMs)] *)
Definition create (maxSize ttlMs : Z) : LRUCache := mkCache [] maxSize ttlMs.

(** [get(key)]: the result ([None] is [undefined]) and the cache after. *)
Definition get (c : LRUCache) (now : Z) (key : K) : option V * LRUCache :=
  match JsMap.get (cache c) key with
  | None => (None, c)
  | Some e =>
      if expires e <? now then
        (None, with_cache c (JsMap.delete (cache c) key))
      else
        (Some (value e),
         with_cache c (JsMap.set (JsMap.delete (cache c) key) key e))
  end.

Definition set (c : LRUCache) (now : Z) (key : K) (v : V) : LRUCache :=
  let m := JsMap.delete (cache c) key in
  let m :=
    if maxSize c <=? JsMap.size m then
      match JsMap.first_key m with
      | Some firstKey => JsMap.delete m firstKey
      | None => m
      end
    else m in
  with_cache c (JsMap.set m key (mkEntry v (now + ttl c))).

Definition has (c : LRUCache) (now : Z) (key : K) : bool * LRUCache :=
  match JsMap.get (cache c) key with
  | None => (false, c)
  | Some e =>
      if expires e <? now then
        (false, with_cache c (JsMap.delete (cache c) key))
      else (true, c)
  end.

Definition clear (c : LRUCache) : LRUCache := with_cache c [].

Definition size (c : LRUCache) : Z := JsMap.size (cache c).

(** *** Traces of operations, with a log of touches

    A touch of [key] is a [set] of it or a [get] that hits; the log lists
    the touched keys, most recent first. *)
Inductive op : Type :=
| OpGet (now : Z) (key : K)
| OpSet (now : Z) (key : K) (v : V)
| OpHas (now : Z) (key : K)
| OpClear.

Definition apply_op (s : LRUCache * list K) (o : op) : LRUCache * list K :=
  let (c, log) := s in
  match o with
  | OpGet now key =>
      let (r, c') := get c now key in
      (c', if r is Some _ then key :: log else log)
  | OpSet now key v => (set c now key v, key :: log)
  | OpHas now key => ((has c now key).2, log)
  | OpClear => (clear c, log)
  end.

Definition run_ops (ops : list op) (s : LRUCache * list K) : LRUCache * list K :=
  fold_left apply_op ops s.





(** The entry of [key] is the one stored at [storedAt]. *)
Definition stored_at (c : LRUCache) (key : K) (storedAt : Z) : Prop :=
  exists e, JsMap.get (cache c) key = Some e
            /\ expires e = storedAt + ttl c.

(** The operation stores [key]. *)
Definition sets (key : K) (o : op) : Prop :=
  match o with
  | OpSet _ k _ => k = key
  | _ => False
  end.
End Cache.
Arguments entry : clear implicits.
Arguments LRUCache : clear implicits.
Arguments op : clear implicits.

End Lru.

(** ** Memoization utilities: the wrapper [memoizeAsync]

    The wrapper runs on one thread: a call runs to its [return], and the
    [then]/[catch] callbacks of a computation run_events later, when it settles. A
    state is what the closure holds between two such steps. Results are
    values other than [undefined]. *)
Module Memo.
Section MemoizeAsync.
Context {R : Type}.

(** One call of the underlying [fn]: the key its callbacks captured, and
    whether its promise has settled. The promise stored in [inflight] is
    named by the position of its computation in [started]. *)
Record computation : Type := mkComputation {
  key_of : string;
  settled : bool
}.

Record state : Type := mkState {
  cache : Lru.LRUCache string R;
  inflight : JsMap.t string nat;
  started : list computation
}.

(** [memoizeAsync(fn, { maxSize, ttl })] *)
Definition init (maxSize ttl : Z) : state :=
  mkState (Lru.create maxSize ttl) [] [].

(** What the caller is handed: a cached result, or the promise of a
    computation. *)
Inductive answer : Type :=
| Cached (r : R)
| Promise (p : nat).

(** The body of the returned function, up to its [return]. *)
Definition call (s : state) (now : Z) (key : string) : state * answer :=
  let (cached, cache') := Lru.get (cache s) now key in
  match cached with
  | Some r => (mkState cache' (inflight s) (started s), Cached r)
  | None =>
      match JsMap.get (inflight s) key with
      | Some pending =>
          (mkState cache' (inflight s) (started s), Promise pending)
      | None =>
          let promise := length (started s) in
          (mkState cache' (JsMap.set (inflight s) key promise)
                   (started s ++ [mkComputation key false]),
           Promise promise)
      end
  end.

Inductive settlement : Type :=
| Fulfilled (result : R)
| Rejected.

(** The [then] and [catch] callbacks, run_events when computation [p] settles; a
    promise settles once. *)
Definition settle (s : state) (now : Z) (p : nat) (o : settlement)
    : state :=
  match started s !! p with
  | Some (mkComputation key false) =>
      let started' := <[p := mkComputation key true]> (started s) in
      match o with
      | Fulfilled result =>
          mkState (Lru.set (cache s) now key result)
                  (JsMap.delete (inflight s) key) started'
      | Rejected =>
          mkState (cache s) (JsMap.delete (inflight s) key) started'
      end
  | _ => s
  end.

Inductive event : Type :=
| Call (now : Z) (key : string)
| Settle (now : Z) (p : nat) (o : settlement).

Definition handle (s : state) (e : event) : state :=
  match e with
  | Call now key => (call s now key).1
  | Settle now p o => settle s now p o
  end.

Definition run_events (evs : list event) (s : state) : state :=
  fold_left handle evs s.

Definition reachable (s : state) : Prop :=
  exists maxSize ttl evs, s = run_events evs (init maxSize ttl).

(** The event is the settling of computation [p]. *)
Definition settles (p : nat) (e : event) : Prop :=
  match e with
  | Settle _ q _ => q = p
  | Call _ _ => False
  end.

(** The in-flight map holds exactly the computations that have not
    settled, under their keys, and none of these keys is cached. *)
Definition coherent (s : state) : Prop :=
  (forall key p,
      JsMap.get (inflight s) key = Some p
      <-> started s !! p = Some (mkComputation key false)) /\
  (forall key p,
      JsMap.get (inflight s) key = Some p ->
      JsMap.get (Lru.cache (cache s)) key = None).
End MemoizeAsync.
Arguments state : clear implicits.
Arguments event : clear implicits.
Arguments answer : clear implicits.
Arguments settlement : clear implicits.
End Memo.

(** ** lib/websocket.ts: the other methods of the event ring buffer *)
Module RingOps.
Import Ring JsValue.
Local Open Scope nat_scope.

(** [array[i] = x] for a value [x] that may be [undefined]. *)
Definition array_put {A : Type} (l : list (option A)) (i : nat)
    (x : option A) : list (option A) :=
  if decide (i < length l) then <[i := x]> l
  else l ++ replicate (i - length l) None ++ [x].

Section EventBuffer.
Context {T : Type}.

(** [push(event)] for an event read back from an array, which may be
    [undefined]. *)
Definition push_value (b : EventBuffer T) (event : option T)
    : EventBuffer T :=
  let buffer' := array_put (buffer b) (head b) event in
  let head' := (head b + 1) mod maxSize b in
  if decide (count b < maxSize b) then
    mkBuffer buffer' head' (tail b) (count b + 1) (maxSize b)
  else
    mkBuffer buffer' head' ((tail b + 1) mod maxSize b) (count b)
             (maxSize b).

(** [getRecent(n)]: [Math.min(n, this.count)] slots, the last ones. A
    negative [n] makes [new Array(actualN)] throw a RangeError. *)
Definition getRecent (b : EventBuffer T) (n : Z)
    : attempt (list (option T)) :=
  let actualN := Z.min n (Z.of_nat (count b)) in
  if (actualN =? 0)%Z then Ok []
  else if (actualN <? 0)%Z then Thrown
  else
    let startIndex := count b - Z.to_nat actualN in
    Ok ((fun i =>
           array_get (buffer b) ((tail b + startIndex + i) mod maxSize b))
          <$> seq 0 (Z.to_nat actualN)).

Definition clear (b : EventBuffer T) : EventBuffer T :=
  mkBuffer (replicate (maxSize b) None) 0 0 0 (maxSize b).

(** [get length()] *)
Definition length_ (b : EventBuffer T) : nat := count b.

(** [get isFull()] *)
Definition isFull (b : EventBuffer T) : bool :=
  bool_decide (maxSize b <= count b).


(** The last [n] elements of a list. *)
Definition last_n {A : Type} (n : nat) (l : list A) : list A :=
  drop (length l - n) l.
End EventBuffer.

End RingOps.

(** ** Memoization utilities: [memoize], and its use in [decodeValue] *)
Module Memoize.
Section Memoize.
Context {Args R : Type}.

(** [fn] returns a result, [None] for [undefined], or throws; [keyFn]
    turns the arguments into the cache key. *)
Variable fn : Args -> JsValue.attempt (option R).
Variable keyFn : Args -> string.

(** One call of the function [memoize(fn, { keyFn })] returns, with the
    cache it closes over: the result, the cache after the call, and whether
    [fn] was run. What [fn] throws is thrown on, with nothing stored. *)
Definition memoized (cache : Lru.LRUCache string (option R)) (now : Z)
    (args : Args)
    : JsValue.attempt (option R) * Lru.LRUCache string (option R) * bool :=
  let key := keyFn args in
  let (cached, cache') := Lru.get cache now key in
  match mjoin cached with
  | Some r => (JsValue.Ok (Some r), cache', false)
  | None =>
      match fn args with
      | JsValue.Ok result =>
          (JsValue.Ok result, Lru.set cache' now key result, true)
      | JsValue.Thrown => (JsValue.Thrown, cache', true)
      end
  end.

(** The cache after a sequence of calls, each at its time. *)
Definition after_calls (calls : list (Z * Args))
    (cache : Lru.LRUCache string (option R))
    : Lru.LRUCache string (option R) :=
  fold_left (fun c call => (memoized c call.1 call.2).1.2) calls cache.

(** Every cached value is the result of [fn] for arguments with that key. *)
Definition faithful (cache : Lru.LRUCache string (option R)) : Prop :=
  forall key e,
    JsMap.get (Lru.cache cache) key = Some e ->
    exists args, keyFn args = key /\ fn args = JsValue.Ok (Lru.value e).
End Memoize.
End Memoize.

(** ** Decoding utilities: the cache in front of [decodeValueInternal] *)
Module DecodeCache.
Import JsValue.
Local Open Scope string_scope.

Section DecodeValue.
(** The decoded record [DecodedValue], the uncached decoder, which may
    throw, and the two conversions to text that [getCacheKey] uses: the
    text of a number, and [JSON.stringify] ([Thrown] when it throws). *)
Context {DecodedValue : Type}.
Variable decodeValueInternal : value -> option string -> attempt DecodedValue.
Variable number_to_string : Q -> string.
Variable JSON_stringify : value -> attempt string.

(** [key ?? ""] *)
Definition hint (key : option string) : string := default "" key.

Definition getCacheKey (v : value) (key : option string) : option string :=
  match v with
  | Null | Undefined => None
  | Str s => Some ("s:" ++ hint key ++ ":" ++ substring 0 200 s)
  | Num q => Some ("n:" ++ hint key ++ ":" ++ number_to_string q)
  | Bool b =>
      Some ("b:" ++ hint key ++ ":" ++ (if b then "true" else "false"))
  | Arr _ | Obj _ | Bytes _ =>
      match JSON_stringify v with
      | Ok json =>
          if (String.length json <? 500)%nat
          then Some ("o:" ++ hint key ++ ":" ++ json) else None
      | Thrown => None
      end
  end.

(** [decodeValue(value, key)] with the module's cache
    [new LRUCache(2000, 5 * 60 * 1000)] passed in and out. *)
Definition decodeValue (cache : Lru.LRUCache string DecodedValue) (now : Z)
    (v : value) (key : option string)
    : attempt DecodedValue * Lru.LRUCache string DecodedValue :=
  match getCacheKey v key with
  | Some cacheKey =>
      let (cached, cache') := Lru.get cache now cacheKey in
      match cached with
      | Some d => (Ok d, cache')
      | None =>
          match decodeValueInternal v key with
          | Ok result => (Ok result, Lru.set cache' now cacheKey result)
          | Thrown => (Thrown, cache')
          end
      end
  | None => (decodeValueInternal v key, cache)
  end.
End DecodeValue.

(** Two strings of 201 characters that differ in the last one only. *)
Fixpoint repeat_char (n : nat) (c : ascii) (tail : string) : string :=
  match n with
  | O => tail
  | S n => String c (repeat_char n c tail)
  end.

Definition long_x : string := repeat_char 200 "a" "x".
Definition long_y : string := repeat_char 200 "a" "y".
End DecodeCache.

(** ** lib/websocket.ts: the reconnecting socket *)
Module Reconnect.

(** [socket.readyState] *)
Inductive readyState : Type := CONNECTING | OPEN | CLOSING | CLOSED.

(** The options, after their defaults: milliseconds and a count. *)
Record options : Type := mkOptions {
  maxRetries : Z;
  initialDelay : Z;
  maxDelay : Z
}.

(** [{ maxRetries: 10, initialDelay: 1000, maxDelay: 30000 }] *)
Definition defaults : options := mkOptions 10 1000 30000.

(** The variables of the closure. A socket and a timer are known by a
    number the environment gives them. *)
Record controller : Type := mkController {
  socket : option nat;
  retryCount : Z;
  retryTimeout : option nat;
  intentionalClose : bool
}.

Definition initial : controller := mkController None 0 None false.

(** What a handler asks of the environment. *)
Inductive effect : Type :=
| SetTimeout (timer : nat) (delay : Z)
| ClearTimeout (timer : nat)
| CloseSocket (sock : nat).

(** [Math.min(initialDelay * Math.pow(2, retryCount), maxDelay)]; the
    product is exact in a double as long as it is finite. *)
Definition calculateDelay (o : options) (retryCount : Z) : Z :=
  Z.min (initialDelay o * 2 ^ retryCount) (maxDelay o).

(** What happens to the controller: a call of [connect] or [disconnect], or
    an event of one of its sockets. *)
Inductive event : Type :=
| Connect (ready : option readyState) (created : option nat)
| Disconnect
| OnOpen
| OnClose (timer : nat)
| OnError
| OnMessage.

(** [connect()]: [ready] is [socket?.readyState], [created] the new socket,
    [None] when [new WebSocket(url)] throws. *)
Definition connect (c : controller) (ready : option readyState)
    (created : option nat) : controller :=
  match ready with
  | Some OPEN | Some CONNECTING => c
  | _ =>
      mkController
        (match created with Some s => Some s | None => socket c end)
        (retryCount c) (retryTimeout c) false
  end.

(** [socket.onclose]: [timer] is what [setTimeout] returns. *)
Definition onclose (o : options) (c : controller) (timer : nat)
    : controller * list effect :=
  if negb (intentionalClose c) && (retryCount c <? maxRetries o) then
    let delay := calculateDelay o (retryCount c) in
    (mkController (socket c) (retryCount c + 1) (Some timer)
                  (intentionalClose c),
     [SetTimeout timer delay])
  else (c, []).

Definition onopen (c : controller) : controller :=
  mkController (socket c) 0 (retryTimeout c) (intentionalClose c).

Definition disconnect (c : controller) : controller * list effect :=
  (mkController None 0 None true,
   match retryTimeout c with Some t => [ClearTimeout t] | None => [] end
   ++ match socket c with Some s => [CloseSocket s] | None => [] end).

Definition handle (o : options) (c : controller) (e : event)
    : controller * list effect :=
  match e with
  | Connect ready created => (connect c ready created, [])
  | Disconnect => disconnect c
  | OnOpen => (onopen c, [])
  | OnClose timer => onclose o c timer
  | OnError | OnMessage => (c, [])
  end.

(** The controller after a sequence of events, and all the effects asked
    for on the way. *)
Fixpoint run (o : options) (c : controller) (events : list event)
    : controller * list effect :=
  match events with
  | [] => (c, [])
  | e :: rest =>
      let (c', effects) := handle o c e in
      let (c'', effects') := run o c' rest in
      (c'', effects ++ effects')
  end.

(** The event is a call of [connect]. *)
Definition is_connect (e : event) : Prop :=
  match e with
  | Connect _ _ => True
  | _ => False
  end.



End Reconnect.

(** ** Strings: the methods the helpers below use *)
Module Str.
Local Open Scope string_scope.

(** [s.split(c)] for a one-character separator: at least one part. *)
Fixpoint split (c : ascii) (s : string) : list string :=
  match s with
  | EmptyString => [EmptyString]
  | String a rest =>
      if Ascii.eqb a c then EmptyString :: split c rest
      else match split c rest with
           | part :: parts => String a part :: parts
           | [] => [String a EmptyString]
           end
  end.

(** [s.includes(c)] for a one-character [c]. *)
Fixpoint includes (c : ascii) (s : string) : bool :=
  match s with
  | EmptyString => false
  | String a rest => Ascii.eqb a c || includes c rest
  end.

(** The rest of [s] after the prefix [p], when [s] starts with [p]. *)
Fixpoint strip_prefix (p s : string) : option string :=
  match p, s with
  | EmptyString, _ => Some s
  | String a p', String b s' =>
      if Ascii.eqb a b then strip_prefix p' s' else None
  | String _ _, EmptyString => None
  end.

(** [parts.join(c)] *)
Fixpoint join (c : ascii) (parts : list string) : string :=
  match parts with
  | [] => EmptyString
  | [p] => p
  | p :: rest => p ++ String c (join c rest)
  end.

(** [!s] *)
Definition empty (s : string) : bool :=
  match s with
  | EmptyString => true
  | String _ _ => false
  end.
End Str.

(** ** Record helpers and decoding utilities: AT-URIs *)
Module AtUri.
Import JsValue.
Local Open Scope string_scope.

(** The three groups of [/^at:\/\/([^/]+)\/([^/]+)\/([^/]+)$/]: after
    [at://], exactly three non-empty parts between slashes. *)
Definition match_at_uri (uri : string) : option (string * string * string) :=
  match Str.strip_prefix "at://" uri with
  | Some rest =>
      match Str.split "/" rest with
      | [did; collection; rkey] =>
          if Str.empty did || Str.empty collection || Str.empty rkey
          then None else Some (did, collection, rkey)
      | _ => None
      end
  | None => None
  end.

(** [parseAtUri] of the decoding utilities: [null] when there is no
    match. *)
Definition parseAtUri (uri : string) : option (string * string * string) :=
  match_at_uri uri.

(** [parseAtUri] of the record helpers: it throws when there is no match. *)
Definition parseAtUri_strict (uri : string)
    : attempt (string * string * string) :=
  match match_at_uri uri with
  | Some parsed => Ok parsed
  | None => Thrown
  end.

Definition buildAtUri (did collection rkey : string) : string :=
  "at://" ++ did ++ "/" ++ collection ++ "/" ++ rkey.

(** [parts[parts.length - 1]] *)
Definition getRkeyFromUri (uri : string) : option string :=
  let parts := Str.split "/" uri in
  parts !! (length parts - 1)%nat.

(** [parts[parts.length - 2]]: [undefined] when there is one part only. *)
Definition getCollectionFromUri (uri : string) : option string :=
  let parts := Str.split "/" uri in
  if (length parts <? 2)%nat then None
  else parts !! (length parts - 2)%nat.

(** A non-empty string without a slash. *)
Definition segment (s : string) : Prop :=
  Str.empty s = false /\ Str.includes "/" s = false.
End AtUri.

(** ** Record helpers: timestamp identifiers in either case *)
Module TidCase.
Import Tid.
Local Open Scope string_scope.

(** The string with [toLowerCase] applied to each character. *)
Fixpoint lower (s : string) : string :=
  match s with
  | EmptyString => EmptyString
  | String c rest => String (toLowerCase c) (lower rest)
  end.
End TidCase.

(** ** Firehose protocol handler: commit events *)
Module Commit.
Import JsValue.
Local Open Scope string_scope.

(** [FirehoseCommitOp]. The field [path] is declared a string; the parser
    below fills it through an unchecked cast, so the record is kept generic
    in the type [P] of what the field really holds. *)
Record FirehoseCommitOp (P : Type) : Type := mkOp {
  action : string;
  path : P;
  cid : value
}.
Arguments mkOp {P} _ _ _.
Arguments action {P} _.
Arguments path {P} _.
Arguments cid {P} _.

(** [FirehoseCommitEvent] *)
Record FirehoseCommitEvent (P : Type) : Type := mkCommit {
  repo : value;
  rev : value;
  seq : value;
  since : value;
  time : value;
  tooBig : value;
  rebase : value;
  blocks : value;
  ops : list (FirehoseCommitOp P)
}.
Arguments mkCommit {P} _ _ _ _ _ _ _ _ _.
Arguments repo {P} _.
Arguments rev {P} _.
Arguments seq {P} _.
Arguments since {P} _.
Arguments time {P} _.
Arguments tooBig {P} _.
Arguments rebase {P} _.
Arguments blocks {P} _.
Arguments ops {P} _.

(** [x || d] *)
Definition or_else (x d : value) : value := if truthy x then x else d.

(** ["name" in b], for an object that passed
    [!body || typeof body !== "object"] and a name no prototype defines. *)
Definition has (b : value) (name : string) : bool :=
  match b with
  | Obj props => bool_decide (is_Some (own props name))
  | _ => false
  end.

(** [action === "create" || action === "update" || action === "delete"] *)
Definition valid_action (a : value) : option string :=
  match a with
  | Str s =>
      if (s =? "create") || (s =? "update") || (s =? "delete")
      then Some s else None
  | _ => None
  end.

(** The body of the loop over [b.ops]: what is pushed, if anything. *)
Definition parse_op (op : value) : attempt (option (FirehoseCommitOp value)) :=
  a ← get op "action";
  match valid_action a with
  | Some s =>
      p ← get op "path";
      c ← get op "cid";
      Ok (Some (mkOp s (or_else p (Str "")) c))
  | None => Ok None
  end.

Fixpoint parse_ops (elems : list value)
    : attempt (list (FirehoseCommitOp value)) :=
  match elems with
  | [] => Ok []
  | op :: rest =>
      o ← parse_op op;
      r ← parse_ops rest;
      Ok (match o with Some x => x :: r | None => r end)
  end.

(** [parseCommitEvent(body)]; [now_iso] is [new Date().toISOString()]. *)
Definition parseCommitEvent (now_iso : string) (body : value)
    : attempt (option (FirehoseCommitEvent value)) :=
  if negb (truthy body) || negb (typeof body =? "object") then Ok None
  else if negb (has body "repo") then Ok None
  else
    b_ops ← get body "ops";
    ops ← match b_ops with
          | Arr elems => parse_ops elems
          | _ => Ok []
          end;
    b_repo ← get body "repo";
    b_rev ← get body "rev";
    b_seq ← get body "seq";
    b_since ← get body "since";
    b_time ← get body "time";
    b_tooBig ← get body "tooBig";
    b_rebase ← get body "rebase";
    b_blocks ← get body "blocks";
    Ok (Some (mkCommit b_repo
                (or_else b_rev (Str ""))
                (or_else b_seq (Num 0))
                (or_else b_since Null)
                (or_else b_time (Str now_iso))
                (or_else b_tooBig (Bool false))
                (or_else b_rebase (Bool false))
                b_blocks
                ops)).

(** [{ action, collection, rkey }] *)
Record operation : Type := mkOperation {
  op_action : string;
  collection : string;
  rkey : string
}.

(** [parts[i] || ""] *)
Definition part_or_empty (parts : list string) (i : nat) : string :=
  default "" (parts !! i).

(** [parts.join(sep)] *)
Fixpoint join_with (sep : string) (parts : list string) : string :=
  match parts with
  | [] => ""
  | [p] => p
  | p :: rest => p ++ sep ++ join_with sep rest
  end.

(** [collection.split(".").pop() || collection] *)
Definition short_name (collection : string) : string :=
  match last (Str.split "." collection) with
  | Some s => if Str.empty s then collection else s
  | None => collection
  end.

Definition operations_of (ops : list (FirehoseCommitOp string))
    : list operation :=
  map (fun op =>
         let parts := Str.split "/" (path op) in
         mkOperation (action op) (part_or_empty parts 0)
                     (part_or_empty parts 1))
      ops.

(** [formatCommitEvent(commit)]: the summary and the operations. *)
Definition formatCommitEvent (commit : FirehoseCommitEvent string)
    : string * list operation :=
  let operations := operations_of (ops commit) in
  let opSummary :=
    join_with ", "
      (map (fun op => op_action op ++ " " ++ short_name (collection op))
           operations) in
  (if Str.empty opSummary then "No operations" else opSummary, operations).

Definition navigable (op : FirehoseCommitOp string) : bool :=
  negb (action op =? "delete") && Str.includes "/" (path op).

(** [commit.ops.some(...)] *)
Definition hasNavigableOps (commit : FirehoseCommitEvent string) : bool :=
  existsb navigable (ops commit).

(** [getOperationNavigationPath(repo, op)]: [None] is [null]. The two
    destructured parts are [undefined] when the split is too short. *)
Definition getOperationNavigationPath (repo : string)
    (op : FirehoseCommitOp string) : option string :=
  if action op =? "delete" then None
  else
    let parts := Str.split "/" (path op) in
    match parts !! 0%nat, parts !! 1%nat with
    | Some collection, Some rkey =>
        if Str.empty collection || Str.empty rkey then None
        else Some ("/at/" ++ repo ++ "/" ++ collection ++ "/" ++ rkey)
    | _, _ => None
    end.

(** The actions kept from the elements of [b.ops], in order. *)
Definition kept_action (op : value) : option string :=
  match get op "action" with
  | Ok a => valid_action a
  | Thrown => None
  end.

(** An element of [b.ops] whose property read throws. *)
Definition nullish (v : value) : Prop := v = Null \/ v = Undefined.

(** A body with three elements in [ops]: a creation, an element with an
    action that is not kept, and a string. *)
Definition sample_body : value :=
  Obj [("repo", Str "did:plc:a");
       ("ops", Arr [Obj [("action", Str "create");
                         ("path", Str "app.bsky.feed.post/3k")];
                    Obj [("action", Str "noop")];
                    Str "x"])].

Definition sample_op : FirehoseCommitOp string :=
  mkOp "create" "app.bsky.feed.post/3k" Undefined.

Definition sample_commit : FirehoseCommitEvent string :=
  mkCommit (Str "did:plc:a") (Str "") (Num 0) Null (Str "") (Bool false)
           (Bool false) Undefined [sample_op].
End Commit.

(** ** Label helpers: grouping *)
Module Labels.

(** [interface Label] *)
Record Label : Type := mkLabel {
  ver : option Z;
  src : string;
  uri : string;
  cid : option string;
  val : string;
  neg : option bool;
  cts : string;
  exp : option string;
  sig : option (list byte)
}.

(** The body of the two loops, for the property [key] of the label:
    [existing = groups.get(key) || []; existing.push(label);
     groups.set(key, existing)]. *)
Definition group_step (key : Label -> string)
    (groups : JsMap.t string (list Label)) (label : Label)
    : JsMap.t string (list Label) :=
  let existing := default [] (JsMap.get groups (key label)) in
  JsMap.set groups (key label) (existing ++ [label]).

Definition group_by (key : Label -> string) (labels : list Label)
    : JsMap.t string (list Label) :=
  fold_left (group_step key) labels [].

Definition groupLabelsBySource (labels : list Label)
    : JsMap.t string (list Label) :=
  group_by src labels.

Definition groupLabelsBySubject (labels : list Label)
    : JsMap.t string (list Label) :=
  group_by uri labels.

(** The distinct elements of a list, in the order of their first
    occurrence. *)
Definition first_occurrences (l : list string) : list string :=
  fold_left (fun seen x => if decide (x ∈ seen) then seen else seen ++ [x])
            l [].

(** [Some] of a list that is not empty. *)
Definition non_empty (g : list Label) : option (list Label) :=
  match g with
  | [] => None
  | _ :: _ => Some g
  end.

Definition sample_label (s u v : string) : Label :=
  mkLabel None s u None v None "2024-01-01T00:00:00Z"%string None None.
End Labels.

(** ** Formatting utilities *)
Module Format.
Local Open Scope string_scope.

(** An index of [slice] brought into [0 .. len]: a negative one counts from
    the end. *)
Definition clamp (len i : Z) : Z :=
  if (i <? 0)%Z then Z.max (len + i) 0 else Z.min i len.

(** [s.slice(start, end)], for whole numbers. *)
Definition slice (s : string) (start end_ : Z) : string :=
  let len := Z.of_nat (String.length s) in
  let from := clamp len start in
  let to := clamp len end_ in
  substring (Z.to_nat from) (Z.to_nat (to - from)) s.

(** [s.slice(start)] *)
Definition slice_from (s : string) (start : Z) : string :=
  slice s start (Z.of_nat (String.length s)).

(** [truncate(str, length)] of the image templates, for a whole number
    [length]. *)
Definition truncate (str : string) (length : Z) : string :=
  if Str.empty str then ""
  else if (Z.of_nat (String.length str) <=? length)%Z then str
  else slice str 0 (length - 3) ++ "...".

(** [truncateDid(did, maxLength)] *)
Definition truncateDid (did : string) (maxLength : Z) : string :=
  if (Z.of_nat (String.length did) <=? maxLength)%Z then did
  else
    let prefix := slice did 0 12 in
    let suffix := slice_from did (-8) in
    prefix ++ "..." ++ suffix.

(** [truncateDid(did)]: [maxLength] is 24 by default. *)
Definition truncateDid_default (did : string) : string := truncateDid did 24.
End Format.

(** ** Decoding utilities: bytes as hexadecimal text *)
Module Hex.
Local Open Scope string_scope.

Definition digits : string := "0123456789abcdef".

Definition digit (n : N) : ascii :=
  default "0"%char (String.get (N.to_nat n) digits).







End Hex.

(** ** Firehose protocol handler: sample frames *)
Module Frames.


End Frames.

(** * Theorems *)

(** ** JavaScript numbers *)
Module JsTheory.
Import Js.

(** Integers below [2 ^ 53] are doubles: nothing is rounded. *)
Lemma round53_small (z : Z) : Z.abs z < 2 ^ 53 -> round53 z = z.
Proof.
  intros H. unfold round53.
  destruct (Z.ltb_spec (Z.abs z) (2 ^ 53)); [reflexivity | lia].
Qed.

Lemma add_small (a b : Z) : Z.abs (a + b) < 2 ^ 53 -> add a b = a + b.
Proof. apply round53_small. Qed.

End JsTheory.

(** ** The CBOR boundary scan *)
Module CborTheory.
Import Js JsTheory Cbor.

Lemma u8_range (b : byte) : 0 <= u8 b < 256.
Proof.
  unfold u8. pose proof (Byte.to_N_bounded b). lia.
Qed.

Lemma initial_major (b : byte) : shr (int32_of (Some (u8 b))) 5 = major b.
Proof. destruct b; reflexivity. Qed.

Lemma initial_info (b : byte) : band (int32_of (Some (u8 b))) 31 = info b.
Proof. destruct b; reflexivity. Qed.

Lemma major_range (b : byte) : 0 <= major b < 8.
Proof.
  unfold major. pose proof (u8_range b).
  split; [apply Z.div_pos; lia | apply Z.div_lt_upper_bound; lia].
Qed.

Lemma info_range (b : byte) : 0 <= info b < 32.
Proof. unfold info. apply Z.mod_pos_bound. lia. Qed.

Lemma lor_low (a b n : Z) :
  0 <= n -> 0 <= b < 2 ^ n -> Z.lor (a * 2 ^ n) b = a * 2 ^ n + b.
Proof.
  intros Hn Hb.
  assert (Hland : Z.land (a * 2 ^ n) b = 0).
  { apply Z.bits_inj'. intros m Hm.
    rewrite Z.land_spec, Z.bits_0.
    destruct (Z.lt_ge_cases m n) as [Hlt | Hge].
    - rewrite Z.mul_pow2_bits_low by lia. reflexivity.
    - destruct (Z.eq_dec b 0) as [-> | Hb0].
      + rewrite Z.bits_0. apply andb_false_r.
      + rewrite (Z.bits_above_log2 b m); [apply andb_false_r | lia |].
        apply Z.lt_le_trans with n; [| lia].
        apply Z.log2_lt_pow2; lia. }
  rewrite <- Z.lxor_lor by exact Hland.
  symmetry. apply Z.add_nocarry_lxor. exact Hland.
Qed.

Lemma toInt32_small (z : Z) : - 2 ^ 31 <= z < 2 ^ 31 -> toInt32 z = z.
Proof.
  intros H. unfold toInt32. rewrite Z.mod_small; lia.
Qed.

Lemma toInt32_range (z : Z) : - 2 ^ 31 <= toInt32 z < 2 ^ 31.
Proof.
  unfold toInt32. pose proof (Z.mod_pos_bound (z + 2 ^ 31) (2 ^ 32)). lia.
Qed.

Lemma be2 (x1 x0 : byte) :
  bor (shl (u8 x1) 8) (u8 x0) = be [x1; x0].
Proof.
  pose proof (u8_range x1). pose proof (u8_range x0).
  unfold bor, shl, be. simpl fold_left.
  rewrite Z.shiftl_mul_pow2 by lia.
  rewrite (toInt32_small (u8 x1)), (toInt32_small (u8 x0)) by lia.
  rewrite !(toInt32_small (u8 x1 * 2 ^ 8)) by lia.
  rewrite lor_low by lia. lia.
Qed.

Lemma toInt32_wrap (z : Z) : 2 ^ 31 <= z < 2 ^ 32 -> toInt32 z = z - 2 ^ 32.
Proof.
  intros H. unfold toInt32.
  replace (z + 2 ^ 31) with (z - 2 ^ 31 + 1 * 2 ^ 32) by lia.
  rewrite Z.mod_add by lia. rewrite Z.mod_small; lia.
Qed.

Lemma be4 (x3 x2 x1 x0 : byte) :
  bor (bor (bor (shl (u8 x3) 24) (shl (u8 x2) 16)) (shl (u8 x1) 8)) (u8 x0)
  = toInt32 (be [x3; x2; x1; x0]).
Proof.
  pose proof (u8_range x3). pose proof (u8_range x2).
  pose proof (u8_range x1). pose proof (u8_range x0).
  unfold bor, shl, be. simpl fold_left.
  rewrite !Z.shiftl_mul_pow2 by lia.
  rewrite (toInt32_small (u8 x3)), (toInt32_small (u8 x2)),
    (toInt32_small (u8 x1)), (toInt32_small (u8 x0)) by lia.
  rewrite !(toInt32_small (u8 x2 * 2 ^ 16)) by lia.
  rewrite !(toInt32_small (u8 x1 * 2 ^ 8)) by lia.
  rewrite !(toInt32_small (toInt32 _)) by apply toInt32_range.
  assert (Hhi : exists k, -128 <= k < 128 /\
            toInt32 (u8 x3 * 2 ^ 24) = k * 2 ^ 24 /\
            toInt32 ((((0 * 256 + u8 x3) * 256 + u8 x2) * 256 + u8 x1) * 256
                     + u8 x0)
            = k * 2 ^ 24 + u8 x2 * 2 ^ 16 + u8 x1 * 2 ^ 8 + u8 x0).
  { destruct (Z.lt_ge_cases (u8 x3) 128).
    - exists (u8 x3). rewrite !toInt32_small by lia. lia.
    - exists (u8 x3 - 256). rewrite !toInt32_wrap by lia. lia. }
  destruct Hhi as (k & Hkr & -> & ->).
  rewrite (lor_low k (u8 x2 * 2 ^ 16) 24) by lia.
  rewrite (toInt32_small (k * 2 ^ 24 + _)) by lia.
  replace (k * 2 ^ 24 + u8 x2 * 2 ^ 16) with ((k * 2 ^ 8 + u8 x2) * 2 ^ 16)
    by lia.
  rewrite lor_low by lia.
  rewrite (toInt32_small (_ + _)) by lia.
  replace ((k * 2 ^ 8 + u8 x2) * 2 ^ 16 + u8 x1 * 2 ^ 8)
    with (((k * 2 ^ 8 + u8 x2) * 2 ^ 8 + u8 x1) * 2 ^ 8) by lia.
  rewrite lor_low by lia. lia.
Qed.

Lemma read8_be (k : nat) (pre l rest : list byte) (acc : Z) :
  length l = k ->
  Z.of_nat (length (pre ++ l ++ rest)) < 2 ^ 53 ->
  read8 k (pre ++ l ++ rest) acc (Z.of_nat (length pre))
  = Some (fold_left (fun a x => a * 256 + u8 x) l acc,
          Z.of_nat (length pre) + Z.of_nat k).
Proof.
  revert pre l acc. induction k as [| k IH]; intros pre l acc Hl Hlen.
  - destruct l; [| discriminate]. simpl. f_equal. f_equal. lia.
  - destruct l as [| x l]; [discriminate |]. injection Hl as Hl.
    simpl read8. unfold at_.
    destruct (Z.ltb_spec (Z.of_nat (length pre)) 0); [lia |].
    rewrite Nat2Z.id.
    change (pre ++ (x :: l) ++ rest) with (pre ++ x :: (l ++ rest)).
    rewrite list_lookup_middle by reflexivity. simpl fmap.
    pose proof (u8_range x).
    rewrite Z.shiftl_mul_pow2 by lia. rewrite lor_low by lia.
    rewrite add_small.
    2:{ rewrite !length_app in Hlen. simpl in Hlen. lia. }
    replace (pre ++ x :: l ++ rest) with ((pre ++ [x]) ++ l ++ rest)
      by (rewrite <- app_assoc; reflexivity).
    replace (Z.of_nat (length pre) + 1) with (Z.of_nat (length (pre ++ [x])))
      by (rewrite length_app; simpl; lia).
    rewrite IH; [| exact Hl |].
    + simpl fold_left. rewrite length_app. simpl length.
      do 2 f_equal; lia.
    + rewrite <- app_assoc. exact Hlen.
Qed.

Lemma at_app (pre l : list byte) (k : nat) (p : Z) :
  p = Z.of_nat (length pre) + Z.of_nat k ->
  at_ (pre ++ l) p = u8 <$> l !! k.
Proof.
  intros ->. unfold at_.
  destruct (Z.ltb_spec (Z.of_nat (length pre) + Z.of_nat k) 0); [lia |].
  rewrite lookup_app_r by lia. do 2 f_equal. lia.
Qed.

Lemma at_here (pre : list byte) (x : byte) (rest : list byte) :
  at_ (pre ++ x :: rest) (Z.of_nat (length pre)) = Some (u8 x).
Proof. rewrite (at_app pre _ 0) by lia. reflexivity. Qed.

Lemma read_argument_head (pre : list byte) (b : byte) (ext rest : list byte)
    (n p : Z) :
  head b n ext ->
  p = Z.of_nat (length pre) + 1 ->
  Z.of_nat (length (pre ++ b :: ext ++ rest)) < 2 ^ 53 ->
  read_argument (pre ++ b :: ext ++ rest) (info b) p
  = Arg (seen b n) (p + Z.of_nat (length ext)).
Proof.
  intros Hhead -> Hlen. unfold read_argument, seen.
  rewrite length_app in Hlen. simpl length in Hlen.
  rewrite length_app in Hlen.
  destruct Hhead as [Hi | x0 Hi | x1 x0 Hi | x3 x2 x1 x0 Hi
                    | x7 x6 x5 x4 x3 x2 x1 x0 Hi].
  - pose proof (info_range b).
    destruct (Z.ltb_spec (info b) 24); [| lia].
    destruct (Z.eqb_spec (info b) 26); [lia |].
    simpl length. f_equal. lia.
  - rewrite Hi. simpl (_ <? _). simpl (_ =? _).
    rewrite (at_app pre _ 1) by lia. simpl.
    rewrite add_small by (simpl in Hlen; lia). unfold be. simpl.
    reflexivity.
  - rewrite Hi. simpl (_ <? _). simpl (_ =? _). simpl length in *.
    rewrite add_small by lia.
    rewrite (at_app pre _ 1), (at_app pre _ 2) by lia. simpl.
    rewrite be2. rewrite add_small by lia. reflexivity.
  - rewrite Hi. simpl (_ <? _). simpl (_ =? _). simpl length in *.
    rewrite !add_small by lia.
    rewrite (at_app pre _ 1), (at_app pre _ 2), (at_app pre _ 3),
      (at_app pre _ 4) by lia. simpl.
    rewrite be4. reflexivity.
  - rewrite Hi. simpl (_ <? _). simpl (_ =? _). simpl length in *.
    replace (pre ++ b :: [x7; x6; x5; x4; x3; x2; x1; x0] ++ rest)
      with ((pre ++ [b]) ++ [x7; x6; x5; x4; x3; x2; x1; x0] ++ rest)
      by (rewrite <- app_assoc; reflexivity).
    replace (Z.of_nat (length pre) + 1)
      with (Z.of_nat (length (pre ++ [b])))
      by (rewrite length_app; simpl; lia).
    rewrite read8_be; [reflexivity | reflexivity |].
    rewrite !length_app. simpl. lia.
Qed.

Lemma readValue_step (fuel : nat) (pre : list byte) (b : byte)
    (tail : list byte) :
  Z.of_nat (length (pre ++ b :: tail)) < 2 ^ 53 ->
  readValue (S fuel) (pre ++ b :: tail) (Z.of_nat (length pre))
  = match read_argument (pre ++ b :: tail) (info b)
            (Z.of_nat (length pre) + 1) with
    | ArgThrow => Throw
    | Indefinite =>
        indefinite fuel (readValue fuel (pre ++ b :: tail)) (pre ++ b :: tail)
                   (major b) (Z.of_nat (length pre) + 1)
    | Arg argValue pos =>
        process fuel (readValue fuel (pre ++ b :: tail)) (major b) argValue pos
    end.
Proof.
  intros Hlen. cbn [readValue].
  assert (Hin : Z.of_nat (length pre) < Z.of_nat (length (pre ++ b :: tail))).
  { rewrite length_app. simpl. lia. }
  destruct (Z.leb_spec (Z.of_nat (length (pre ++ b :: tail)))
              (Z.of_nat (length pre))); [lia |].
  rewrite at_here, initial_major, initial_info.
  rewrite add_small by lia. reflexivity.
Qed.




Lemma item_first (h : list byte) :
  item h -> exists b tail, h = b :: tail /\ u8 b <> 255.
Proof.
  assert (Hbrk : forall b, u8 b = 255 -> major b = 7 /\ info b = 31).
  { intros b Hb. unfold major, info. rewrite Hb. split; reflexivity. }
  assert (Hhead : forall b n ext, head b n ext -> info b <> 31).
  { intros b n ext []; lia. }
  intros [b n ext Hm Hh | b n ext payload Hm Hh _ | b cs Hm _ _
         | b n ext elems Hm _ _ | b n elems Hm _ _ | b n ext es Hm _ _
         | b n es Hm _ _ | b n ext v Hm _ _];
    eexists _, _; (split; [reflexivity |]); intros Hb;
    destruct (Hbrk b Hb) as [H7 H31]; try lia.
  apply (Hhead _ _ _ Hh H31).
Qed.


















(** The header [{t: "#commit", op: 1}] followed by an empty map, with
    definite lengths and with indefinite ones. *)
Example boundary_commit_header :
  findCborBoundary 16
    [xa2; x61; x74; x67; x23; x63; x6f; x6d; x6d; x69; x74; x62; x6f; x70;
     x01; xa0]
  = Done 15.
Proof. reflexivity. Qed.

Example boundary_indefinite_header :
  findCborBoundary 16
    [xbf; x61; x74; x7f; x62; x23; x63; x61; x6f; xff; x62; x6f; x70; x01;
     xff; xa0]
  = Done 15.
Proof. reflexivity. Qed.

(** A header cut short throws, and the frame decodes to [null]. *)
Example boundary_cut_short :
  findCborBoundary 16 [xa2; x61; x74; x67; x23; x63] = Throw.
Proof. reflexivity. Qed.

Lemma long_string_item (payload : list byte) :
  Z.of_nat (length payload) = 2 ^ 31 -> item (long_string payload).
Proof.
  intros Hp. unfold long_string.
  apply (item_string x5a (be [x80; x00; x00; x00]) [x80; x00; x00; x00]
           payload).
  - left. reflexivity.
  - apply head_4. reflexivity.
  - rewrite Hp. reflexivity.
Qed.

Lemma long_string_boundary (payload rest : list byte) (fuel : nat) :
  Z.of_nat (length (long_string payload ++ rest)) < 2 ^ 53 ->
  findCborBoundary (S fuel) (long_string payload ++ rest) = Done (5 - 2 ^ 31).
Proof.
  intros Hlen. unfold findCborBoundary, long_string in *.
  change ((x5a :: x80 :: x00 :: x00 :: x00 :: payload) ++ rest)
    with ([] ++ x5a :: [x80; x00; x00; x00] ++ (payload ++ rest)) in *.
  change 0 with (Z.of_nat (length (@nil byte))) at 1.
  rewrite readValue_step by exact Hlen.
  rewrite (read_argument_head [] x5a [x80; x00; x00; x00] (payload ++ rest)
             (be [x80; x00; x00; x00]));
    [| apply head_4; reflexivity | reflexivity | exact Hlen].
  reflexivity.
Qed.

Lemma long_string_split (payload rest : list byte) :
  Z.of_nat (length payload) = 2 ^ 31 ->
  Z.of_nat (length rest) < 2 ^ 31 - 5 ->
  fst (split_at (long_string payload ++ rest) (5 - 2 ^ 31))
  <> long_string payload.
Proof.
  intros Hp Hr E. apply (f_equal length) in E.
  unfold split_at, slice, long_string, rel_index in E. cbn [fst] in E.
  rewrite length_take in E.
  destruct (Z.ltb_spec 0 0); [lia |].
  destruct (Z.ltb_spec (5 - 2 ^ 31) 0); [| lia].
  rewrite length_app in E. cbn [length] in E. lia.
Qed.

Lemma long_string_wrong (payload : list byte) :
  Z.of_nat (length payload) = 2 ^ 31 ->
  item (long_string payload) /\ item [x00] /\
  forall fuel : nat,
    findCborBoundary (S fuel) (long_string payload ++ [x00])
    = Done (5 - 2 ^ 31)
    /\ fst (split_at (long_string payload ++ [x00]) (5 - 2 ^ 31))
       <> long_string payload.
Proof.
  intros Hp.
  split; [exact (long_string_item payload Hp) |].
  split; [exact (item_plain x00 (info x00) [] (or_introl eq_refl)
                   (head_0 x00 eq_refl)) |].
  intros fuel. split.
  - apply long_string_boundary. unfold long_string.
    rewrite length_app. cbn [length]. lia.
  - apply (long_string_split payload [x00] Hp). cbn [length]. lia.
Qed.

Lemma zeros_length : Z.of_nat (length zeros) = 2 ^ 31.
Proof.
  unfold zeros. rewrite length_replicate. apply Z2Nat.id. lia.
Qed.

(** C1 fails on the code. The header is a byte string of [2 ^ 31] zero
    bytes, its length written in four bytes ([5a 80 00 00 00]), the body is
    the integer 0. Both are well-formed; the four-byte length goes through
    32-bit signed operators and comes out as [- 2 ^ 31], the boundary
    returned is [5 - 2 ^ 31], and the first slice is not the header. *)
Theorem boundary_of_long_string :
  item (long_string zeros) /\ item [x00] /\
  forall fuel : nat,
    findCborBoundary (S fuel) (long_string zeros ++ [x00])
    = Done (5 - 2 ^ 31)
    /\ fst (split_at (long_string zeros ++ [x00]) (5 - 2 ^ 31))
       <> long_string zeros.
Proof. exact (long_string_wrong zeros zeros_length). Qed.

Lemma truncated_element (fuel : nat) :
  readValue (S fuel) truncated_frame 1 = Done 1.
Proof. reflexivity. Qed.

Lemma truncated_loop (n fuel : nat) :
  until_break n (readValue fuel truncated_frame) truncated_frame 1 = Timeout.
Proof.
  induction n as [| n IH]; [reflexivity |].
  cbn [until_break].
  destruct (decide (at_ truncated_frame 1 = Some 255)) as [E | _];
    [discriminate E |].
  destruct fuel as [| fuel]; [reflexivity |].
  rewrite truncated_element. exact IH.
Qed.

(** On the truncated frame the scan runs for ever: the element of the
    array moves the cursor back to where it started. *)
Lemma findCborBoundary_truncated (fuel : nat) :
  findCborBoundary fuel truncated_frame = Timeout.
Proof.
  destruct fuel as [| fuel]; [reflexivity |].
  unfold findCborBoundary.
  change (readValue (S fuel) truncated_frame 0)
    with (bind (until_break fuel (readValue fuel truncated_frame)
                  truncated_frame 1) (fun p => Done (add p 1))).
  rewrite truncated_loop. reflexivity.
Qed.

Lemma head_info (b : byte) (n : Z) (ext : list byte) :
  head b n ext -> info b < 28 /\ (info b = 26 -> length ext = 4%nat).
Proof. intros []; split; (lia || (intros; (reflexivity || lia))). Qed.

Lemma item_info_26 (h : list byte) (b : byte) (tail : list byte) :
  item h -> h = b :: tail -> info b = 26 -> (5 <= length h)%nat.
Proof.
  intros Hitem E H26.
  destruct Hitem as [b' n ext Hm Hh | b' n ext payload Hm Hh _ | b' cs Hm Hi _
         | b' n ext elems Hm Hh _ | b' n elems Hm Hi _ | b' n ext es Hm Hh _
         | b' n es Hm Hi _ | b' n ext v Hm Hh _];
    injection E as -> _; try lia;
    destruct (head_info _ _ _ Hh) as [_ H4]; specialize (H4 H26);
    cbn [length]; rewrite ?length_app; lia.
Qed.

Lemma item_indefinite_array (h : list byte) (b : byte) (tail : list byte) :
  item h -> h = b :: tail -> info b = 31 -> major b = 4 ->
  exists n elems, tail = elems ++ [xff] /\ items n elems.
Proof.
  intros Hitem E H31 H4.
  destruct Hitem as [b' n ext Hm Hh | b' n ext payload Hm Hh _ | b' cs Hm Hi _
         | b' n ext elems Hm Hh _ | b' n elems Hm Hi Hel | b' n ext es Hm Hh _
         | b' n es Hm Hi _ | b' n ext v Hm Hh _];
    injection E as -> <-; try lia;
    try (destruct (head_info _ _ _ Hh) as [Hlt _]; lia).
  exists n, elems. split; [reflexivity | exact Hel].
Qed.

(** The truncated frame is not two concatenated data items. *)
Lemma truncated_frame_malformed :
  ~ exists h b : list byte, item h /\ item b /\ truncated_frame = h ++ b.
Proof.
  intros (h & b0 & Hh & _ & E).
  destruct (item_first h Hh) as (b & tail & -> & _).
  unfold truncated_frame in E. injection E as <- E.
  destruct (item_indefinite_array _ _ _ Hh eq_refl eq_refl eq_refl)
    as (n & elems & -> & Hel).
  destruct Hel as [| n a r Ha _].
  - discriminate E.
  - destruct (item_first a Ha) as (b & tail & -> & _).
    injection E as <- E.
    pose proof (item_info_26 _ _ _ Ha eq_refl eq_refl) as H5.
    apply (f_equal length) in E. cbn [length] in *.
    rewrite !length_app in E. cbn [length] in *. lia.
Qed.

(** C2 fails on the code. The frame [9f 5a ff ff ff fb] is malformed, an
    indefinite-length array cut short inside a byte string that announces
    [0xfffffffb] bytes; [decodeFirehoseFrame] does not return [null] on it:
    whatever the iteration budget, the call is still running. *)
Theorem decodeFirehoseFrame_truncated {value : Type}
    (decode : list byte -> option value) (op_of : value -> option Z)
    (t_of : value -> option value) :
  (~ exists h b : list byte, item h /\ item b /\ truncated_frame = h ++ b) /\
  forall fuel : nat,
    decodeFirehoseFrame decode op_of t_of fuel truncated_frame = Running.
Proof.
  split; [exact truncated_frame_malformed |].
  intros fuel. unfold decodeFirehoseFrame.
  rewrite findCborBoundary_truncated. reflexivity.
Qed.

End CborTheory.


(** ** The event ring buffer *)
Module RingTheory.
Import Ring.
Local Open Scope nat_scope.

Lemma mod_shift_ne (N j d : nat) : 0 < d < N -> (j + d) mod N <> j mod N.
Proof.
  intros Hd E.
  assert (HN : N <> 0) by lia.
  pose proof (Nat.div_mod_eq (j + d) N) as H1.
  pose proof (Nat.div_mod_eq j N) as H2.
  pose proof (Nat.mod_upper_bound j N HN) as H3.
  rewrite E in H1.
  assert (Hq : N * ((j + d) / N) = N * (j / N) + d) by lia.
  assert (Hle : j / N <= (j + d) / N)
    by (apply Nat.Div0.div_le_mono; lia).
  assert (Hq' : N * ((j + d) / N - j / N) = d) by nia.
  destruct ((j + d) / N - j / N) as [| k]; nia.
Qed.

Section Facts.
Context {T : Type}.
Implicit Types (b : EventBuffer T) (xs : list T).

Lemma tracks_create (N : nat) : 0 < N -> tracks N (empty_buffer N) (@nil T).
Proof.
  intros HN. split; simpl; try reflexivity.
  - apply length_replicate.
  - symmetry. apply Nat.Div0.mod_0_l.
  - symmetry. apply Nat.Div0.mod_0_l.
  - intros j Hj. lia.
Qed.

Lemma tracks_push (N : nat) b xs (x : T) :
  0 < N -> tracks N b xs -> tracks N (push b x) (xs ++ [x]).
Proof.
  intros HN [Hmax Hlen Hcount Hhead Htail Hslots].
  assert (Hh : head b < length (buffer b)).
  { rewrite Hhead, Hlen. apply Nat.mod_upper_bound. lia. }
  assert (Hset : array_set (buffer b) (head b) x
                 = <[head b := Some x]> (buffer b)).
  { unfold array_set. destruct (decide (head b < length (buffer b))); [done | lia]. }
  assert (Hhead' : (head b + 1) mod maxSize b = length (xs ++ [x]) mod N).
  { rewrite Hmax, Hhead, length_app. simpl.
    apply Nat.Div0.add_mod_idemp_l. }
  assert (Hnew : forall j, j < length xs -> length xs - j < N ->
            <[head b := Some x]> (buffer b) !! (j mod N)
            = buffer b !! (j mod N)).
  { intros j Hj Hd. apply list_lookup_insert_ne. rewrite Hhead.
    replace (length xs) with (j + (length xs - j)) by lia.
    apply mod_shift_ne. lia. }
  assert (Hlast : <[head b := Some x]> (buffer b) !! (length xs mod N)
                  = Some ((xs ++ [x]) !! length xs)).
  { rewrite <- Hhead. rewrite list_lookup_insert_eq by exact Hh.
    rewrite list_lookup_middle by reflexivity. reflexivity. }
  unfold push. rewrite Hset.
  destruct (decide (count b < maxSize b)) as [Hlt | Hge].
  - split; simpl.
    + exact Hmax.
    + rewrite length_insert. exact Hlen.
    + rewrite length_app. simpl. lia.
    + exact Hhead'.
    + rewrite Htail, length_app. simpl. f_equal. lia.
    + intros j Hj. rewrite length_app in Hj. simpl in Hj.
      destruct (decide (j = length xs)) as [-> | Hne]; [exact Hlast |].
      rewrite Hnew by lia. rewrite Hslots by lia.
      rewrite lookup_app_l by lia. reflexivity.
  - split; simpl.
    + exact Hmax.
    + rewrite length_insert. exact Hlen.
    + rewrite length_app. simpl. lia.
    + exact Hhead'.
    + rewrite Hmax, Htail, length_app. simpl.
      rewrite Nat.Div0.add_mod_idemp_l. f_equal. lia.
    + intros j Hj. rewrite length_app in Hj. simpl in Hj.
      destruct (decide (j = length xs)) as [-> | Hne]; [exact Hlast |].
      rewrite Hnew by lia. rewrite Hslots by lia.
      rewrite lookup_app_l by lia. reflexivity.
Qed.

Lemma tracks_pushMany (N : nat) (ys : list T) b xs :
  0 < N -> tracks N b xs -> tracks N (pushMany b ys) (xs ++ ys).
Proof.
  intros HN. revert b xs.
  induction ys as [| y ys IH]; intros b xs Hb; simpl.
  - rewrite app_nil_r. exact Hb.
  - replace (xs ++ y :: ys) with ((xs ++ [y]) ++ ys)
      by (rewrite <- app_assoc; reflexivity).
    apply IH. apply tracks_push; assumption.
Qed.

Lemma lookup_window (xs : list T) (k : nat) :
  (fun i => xs !! (k + i)) <$> seq 0 (length xs - k) = Some <$> drop k xs.
Proof.
  apply list_eq. intros i.
  rewrite !list_lookup_fmap, lookup_drop.
  destruct (decide (i < length xs - k)) as [Hi | Hi].
  - rewrite lookup_seq_lt by exact Hi. simpl.
    destruct (lookup_lt_is_Some_2 xs (k + i)) as [x Hx]; [lia |].
    rewrite Hx. reflexivity.
  - rewrite lookup_seq_ge by lia. simpl.
    rewrite lookup_ge_None_2 by lia. reflexivity.
Qed.

Lemma tracks_getAll (N : nat) b xs :
  0 < N -> tracks N b xs -> getAll b = Some <$> drop (length xs - N) xs.
Proof.
  intros HN [Hmax Hlen Hcount Hhead Htail Hslots].
  unfold getAll.
  destruct (decide (count b = 0)) as [H0 | H0].
  - assert (length xs = 0) by lia.
    destruct xs; [reflexivity | discriminate].
  - replace (length xs - N) with (length xs - count b) by lia.
    rewrite <- lookup_window.
    replace (length xs - (length xs - count b)) with (count b) by lia.
    apply list_fmap_ext. intros i k Hk.
    apply lookup_seq in Hk as [-> Hi]. simpl.
    unfold array_get.
    rewrite Hmax, Htail, Nat.Div0.add_mod_idemp_l.
    rewrite Hslots by lia. reflexivity.
Qed.
End Facts.

(** C3. After any sequence of pushes into a buffer of capacity [N > 0],
    [getAll] returns all the pushed items in push order when there are at
    most [N] of them, and exactly the last [N] in push order otherwise; the
    count never exceeds [N], at the end and after every prefix. *)
Theorem getAll_pushed {T : Type} (N : nat) (items : list T) :
  0 < N ->
  (length items <= N -> getAll (pushed N items) = Some <$> items) /\
  (N < length items ->
   getAll (pushed N items) = Some <$> drop (length items - N) items
   /\ length (getAll (pushed N items)) = N) /\
  (forall k, 0 <= count (pushed N (take k items)) <= N) /\
  count (pushed N items) = length items `min` N.
Proof.
  intros HN.
  assert (Htr : forall xs : list T, tracks N (pushed N xs) xs).
  { intros xs. apply (tracks_pushMany N xs (empty_buffer N) []); [exact HN |].
    apply tracks_create. exact HN. }
  pose proof (tracks_getAll N _ _ HN (Htr items)) as Hget.
  split; [| split; [| split]].
  - intros Hle. rewrite Hget.
    replace (length items - N) with 0 by lia. reflexivity.
  - intros Hlt. split; [exact Hget |].
    rewrite Hget, length_fmap, length_drop. lia.
  - intros k. pose proof (tracks_count _ _ _ (Htr (take k items))). lia.
  - apply (tracks_count _ _ _ (Htr items)).
Qed.

Lemma getAll_pushed_witness :
  0 < 2 /\
  getAll (pushed 2 [10; 20; 30]) = [Some 20; Some 30] /\
  getAll (pushed 2 [10]) = [Some 10].
Proof.
  split; [lia |]. split.
  - destruct (getAll_pushed 2 [10; 20; 30]) as (_ & H & _); [lia |].
    apply H. simpl. lia.
  - destruct (getAll_pushed 2 [10]) as (H & _); [lia |].
    apply H. simpl. lia.
Defined.

End RingTheory.

(** ** Validation of Jetstream messages *)
Module JetstreamTheory.
Import JsValue Jetstream.
Local Open Scope string_scope.

Lemma get_truthy (v : value) (name : string) :
  (exists x, get v name = Ok x /\ truthy x = true) <-> present_truthy v name.
Proof.
  destruct v as [| | b | q | s | l | props | bs]; simpl;
    try (split; [intros (x & H & Hx); first [discriminate H
           | injection H as <-; discriminate Hx] | contradiction]).
  split.
  - intros (x & H & Hx). injection H as <-.
    destruct (own props name) as [y |]; [| discriminate Hx].
    exists y. split; [reflexivity | exact Hx].
  - intros (y & -> & Hy). exists y. split; [reflexivity | exact Hy].
Qed.

Lemma validate_some (event : value) :
  present_truthy event "did" -> present_truthy event "time_us" ->
  present_truthy event "kind" -> validate event = Ok (Some event).
Proof.
  intros Hd Ht Hk.
  apply get_truthy in Hd as (d & Ed & Hd).
  apply get_truthy in Ht as (t & Et & Ht).
  apply get_truthy in Hk as (k & Ek & Hk).
  unfold validate. rewrite Ed. simpl. rewrite Hd. simpl.
  rewrite Et. simpl. rewrite Ht. simpl.
  rewrite Ek. simpl. rewrite Hk. reflexivity.
Qed.

Lemma validate_inv (event : value) (r : value) :
  validate event = Ok (Some r) ->
  r = event /\ present_truthy event "did" /\ present_truthy event "time_us"
  /\ present_truthy event "kind".
Proof.
  unfold validate. intros H.
  destruct (get event "did") as [d |] eqn:Ed; [| discriminate H].
  simpl in H. destruct (truthy d) eqn:Hd; [| discriminate H]. simpl in H.
  destruct (get event "time_us") as [t |] eqn:Et; [| discriminate H].
  simpl in H. destruct (truthy t) eqn:Ht; [| discriminate H]. simpl in H.
  destruct (get event "kind") as [k |] eqn:Ek; [| discriminate H].
  simpl in H. destruct (truthy k) eqn:Hk; [| discriminate H]. simpl in H.
  injection H as <-.
  split; [reflexivity |].
  split; [| split]; apply get_truthy; eauto.
Qed.

(** C4, as stated, fails: with [time_us] equal to [0] all three fields are
    present in the parsed object, and the result is [null]. *)
Lemma parseJetstreamEvent_zero_time :
  present zero_time_event "did" /\ present zero_time_event "time_us" /\
  present zero_time_event "kind" /\
  parseJetstreamEvent (Ok zero_time_event) = None.
Proof.
  repeat split; try (simpl; discriminate).
Qed.

(** C4, amended. [parseJetstreamEvent] returns [null] exactly when the text
    is not valid JSON or one of [did], [time_us], [kind] is absent from the
    parsed value or falsy ([null], [false], [0], the empty string); in every
    other case it returns the parsed event. It never throws. *)
Theorem parseJetstreamEvent_null_iff (parsed : attempt value) :
  (parseJetstreamEvent parsed = None <->
   parsed = Thrown \/
   exists event, parsed = Ok event /\
     ~ (present_truthy event "did" /\ present_truthy event "time_us" /\
        present_truthy event "kind")) /\
  (forall event, parsed = Ok event ->
     present_truthy event "did" -> present_truthy event "time_us" ->
     present_truthy event "kind" ->
     parseJetstreamEvent parsed = Some event).
Proof.
  split.
  - destruct parsed as [event |]; [| split; [left; reflexivity | reflexivity]].
    unfold parseJetstreamEvent. simpl.
    split.
    + intros H. right. exists event. split; [reflexivity |].
      intros (Hd & Ht & Hk).
      rewrite (validate_some event Hd Ht Hk) in H. discriminate H.
    + intros [[=] | (e & [= <-] & Hnot)].
      destruct (validate event) as [[r |] |] eqn:E; try reflexivity.
      exfalso. apply Hnot.
      destruct (validate_inv _ _ E) as (_ & H). exact H.
  - intros event -> Hd Ht Hk. unfold parseJetstreamEvent. simpl.
    rewrite (validate_some event Hd Ht Hk). reflexivity.
Qed.

Lemma parseJetstreamEvent_null_iff_witness :
  parseJetstreamEvent
    (Ok (Obj [("did", Str "did:plc:a"); ("time_us", Num 1);
              ("kind", Str "commit")]))
  = Some (Obj [("did", Str "did:plc:a"); ("time_us", Num 1);
               ("kind", Str "commit")]).
Proof.
  apply (parseJetstreamEvent_null_iff _); [reflexivity | | |];
    simpl; eexists; (split; [reflexivity | reflexivity]).
Defined.

End JetstreamTheory.

(** ** Timestamp identifiers *)
Module TidTheory.
Import Tid.
Local Open Scope string_scope.

Lemma alphabet_code (c : ascii) :
  alphabet c ->
  toLowerCase c = c /\
  ((50 <= Z.of_N (N_of_ascii c) <= 55
    /\ digit c = Z.of_N (N_of_ascii c) - 50) \/
   (97 <= Z.of_N (N_of_ascii c) <= 122
    /\ digit c = Z.of_N (N_of_ascii c) - 91)).
Proof.
  unfold alphabet. simpl.
  intros H.
  repeat (destruct H as [<- | H];
          [split; [reflexivity | vm_compute; intuition congruence] |]).
  contradiction.
Qed.

Lemma digit_range (c : ascii) : alphabet c -> 0 <= digit c < 32.
Proof.
  intros H. destruct (alphabet_code c H) as (_ & [[H0 H1] | [H0 H1]]).
  - rewrite H1. lia.
  - rewrite H1. lia.
Qed.

Lemma digit_lt (c1 c2 : ascii) :
  alphabet c1 -> alphabet c2 -> Ascii.compare c1 c2 = Lt ->
  digit c1 < digit c2.
Proof.
  intros H1 H2 Hc. unfold Ascii.compare in Hc.
  rewrite N.compare_lt_iff in Hc.
  destruct (alphabet_code c1 H1) as (_ & [[? ->] | [? ->]]);
    destruct (alphabet_code c2 H2) as (_ & [[? ->] | [? ->]]); lia.
Qed.

Lemma valid_chars_cons (c : ascii) (s : string) :
  valid_chars (String c s) <-> alphabet c /\ valid_chars s.
Proof. unfold valid_chars. simpl. apply Forall_cons. Qed.

Lemma base32_range (s : string) :
  valid_chars s -> 0 <= base32 s < 32 ^ Z.of_nat (String.length s).
Proof.
  induction s as [| c s IH]; intros Hv.
  - simpl. lia.
  - apply valid_chars_cons in Hv as [Hc Hs].
    specialize (IH Hs). pose proof (digit_range c Hc).
    cbn [base32 String.length].
    rewrite Nat2Z.inj_succ, Z.pow_succ_r by lia. nia.
Qed.

Lemma decode_chars_valid (s : string) (acc : Z) :
  valid_chars s ->
  decode_chars s acc
  = Some (acc * 32 ^ Z.of_nat (String.length s) + base32 s).
Proof.
  revert acc. induction s as [| c s IH]; intros acc Hv.
  - simpl. f_equal. lia.
  - apply valid_chars_cons in Hv as [Hc Hs].
    cbn [decode_chars base32 String.length].
    destruct (alphabet_code c Hc) as (-> & _).
    pose proof (digit_range c Hc) as Hd. fold (digit c).
    destruct (Z.eqb_spec (digit c) (-1)); [lia |].
    rewrite IH by exact Hs. f_equal.
    rewrite Nat2Z.inj_succ, Z.pow_succ_r by lia. lia.
Qed.

Lemma compare_base32 (s1 s2 : string) :
  valid_chars s1 -> valid_chars s2 -> String.length s1 = String.length s2 ->
  String.compare s1 s2 <> Gt -> base32 s1 <= base32 s2.
Proof.
  revert s2. induction s1 as [| c1 s1 IH]; intros [| c2 s2] H1 H2 Hlen Hc;
    try discriminate Hlen.
  - simpl. lia.
  - apply valid_chars_cons in H1 as [Hc1 Hs1].
    apply valid_chars_cons in H2 as [Hc2 Hs2].
    injection Hlen as Hlen.
    pose proof (base32_range s1 Hs1). pose proof (base32_range s2 Hs2).
    cbn [base32]. rewrite <- Hlen in *.
    cbn [String.compare] in Hc.
    destruct (Ascii.compare c1 c2) eqn:E.
    + apply Ascii.compare_eq_iff in E as ->.
      specialize (IH s2 Hs1 Hs2 Hlen Hc). lia.
    + pose proof (digit_lt c1 c2 Hc1 Hc2 E). nia.
    + congruence.
Qed.

Lemma substring_valid (m : nat) (s : string) :
  valid_chars s -> valid_chars (substring 0 m s).
Proof.
  revert s. induction m as [| m IH]; intros s Hv.
  - destruct s; unfold valid_chars; cbn [substring list_ascii_of_string];
      constructor.
  - destruct s as [| c s]; [exact Hv |].
    apply valid_chars_cons in Hv as [Hc Hs].
    cbn [substring]. apply valid_chars_cons.
    split; [exact Hc | apply IH; exact Hs].
Qed.

Lemma substring_length (m : nat) (s : string) :
  (m <= String.length s)%nat -> String.length (substring 0 m s) = m.
Proof.
  revert s. induction m as [| m IH]; intros [| c s] Hle; simpl in *;
    try reflexivity; try lia.
  f_equal. apply IH. lia.
Qed.

(** The decoded value: the first 11 characters in base 32, as microseconds,
    floored to milliseconds. *)
Lemma tidToDate_value (tid : string) :
  valid_tid tid ->
  tidToDate tid = Some (base32 (substring 0 11 tid) / 1000).
Proof.
  intros [Hlen Hv]. unfold tidToDate.
  destruct (String.eqb_spec tid "") as [-> | _]; [discriminate Hlen |].
  rewrite Hlen. simpl negb. simpl orb. cbv iota.
  pose proof (substring_valid 11 tid Hv) as Hv11.
  pose proof (substring_length 11 tid ltac:(lia)) as Hlen11.
  rewrite (decode_chars_valid _ 0 Hv11).
  pose proof (base32_range _ Hv11) as Hr. rewrite Hlen11 in Hr.
  f_equal. simpl (0 * _ + _).
  rewrite Z.quot_div_nonneg by lia.
  apply JsTheory.round53_small.
  assert (0 <= base32 (substring 0 11 tid) / 1000 < 2 ^ 53); [| lia].
  split; [apply Z.div_pos; lia |].
  apply Z.div_lt_upper_bound; [lia |].
  change (32 ^ Z.of_nat 11) with 36028797018963968 in Hr. lia.
Qed.

(** C8. For valid 13-character timestamp keys the decoded time does not
    decrease when the first 11 characters grow in lexicographic order, and
    it is a function of the first 11 characters alone: it is their base-32
    value, in microseconds, floored to milliseconds. *)
Theorem tidToDate_monotone (a b : string) :
  valid_tid a -> valid_tid b ->
  exists ta tb : Z,
    tidToDate a = Some ta /\ tidToDate b = Some tb /\
    ta = base32 (substring 0 11 a) / 1000 /\
    (String.leb (substring 0 11 a) (substring 0 11 b) = true -> ta <= tb) /\
    (substring 0 11 a = substring 0 11 b -> ta = tb).
Proof.
  intros Ha Hb.
  exists (base32 (substring 0 11 a) / 1000),
         (base32 (substring 0 11 b) / 1000).
  split; [apply tidToDate_value; exact Ha |].
  split; [apply tidToDate_value; exact Hb |].
  split; [reflexivity |].
  split.
  - intros Hle. apply Z.div_le_mono; [lia |].
    destruct Ha as [Hla Hva], Hb as [Hlb Hvb].
    apply compare_base32.
    + apply substring_valid. exact Hva.
    + apply substring_valid. exact Hvb.
    + rewrite !substring_length by lia. reflexivity.
    + unfold String.leb in Hle. intros E. rewrite E in Hle. discriminate Hle.
  - intros ->. reflexivity.
Qed.

Ltac in_alphabet :=
  unfold alphabet; simpl; repeat first [left; reflexivity | right].

Lemma tidToDate_monotone_witness :
  valid_tid "3jzfcijpj2z2a" /\ valid_tid "3jzfcijpj2z22" /\
  exists ta tb : Z,
    tidToDate "3jzfcijpj2z2a" = Some ta /\
    tidToDate "3jzfcijpj2z22" = Some tb /\
    ta = base32 (substring 0 11 "3jzfcijpj2z2a") / 1000 /\
    (String.leb (substring 0 11 "3jzfcijpj2z2a")
                (substring 0 11 "3jzfcijpj2z22") = true -> ta <= tb) /\
    (substring 0 11 "3jzfcijpj2z2a" = substring 0 11 "3jzfcijpj2z22" ->
     ta = tb).
Proof.
  assert (Ha : valid_tid "3jzfcijpj2z2a").
  { split; [reflexivity |]. unfold valid_chars. simpl.
    repeat (apply List.Forall_cons; [in_alphabet |]). apply List.Forall_nil. }
  assert (Hb : valid_tid "3jzfcijpj2z22").
  { split; [reflexivity |]. unfold valid_chars. simpl.
    repeat (apply List.Forall_cons; [in_alphabet |]). apply List.Forall_nil. }
  split; [exact Ha |]. split; [exact Hb |].
  exact (tidToDate_monotone _ _ Ha Hb).
Defined.

End TidTheory.

(** ** The encoding classifier *)
Module DetectTheory.
Import JsValue Detect.
Local Open Scope string_scope.

Lemma get_guarded (v : value) (name : string) :
  negb (truthy v) || negb (typeof v =? "object") = false ->
  exists x, get v name = Ok x.
Proof.
  destruct v; simpl; intros H; try discriminate H; eauto.
Qed.

Lemma isBlobRef_returns (v : value) : exists b, isBlobRef v = Ok b.
Proof.
  unfold isBlobRef.
  destruct (negb (truthy v) || negb (typeof v =? "object")) eqn:G; [eauto |].
  destruct (get_guarded v "$type" G) as [ty ->].
  destruct (get_guarded v "ref" G) as [ref ->]. simpl.
  destruct ty; eauto.
  destruct (s =? "blob"); eauto.
  destruct (truthy ref); eauto.
Qed.

Lemma isStrongRef_returns (v : value) : exists b, isStrongRef v = Ok b.
Proof.
  unfold isStrongRef.
  destruct (negb (truthy v) || negb (typeof v =? "object")) eqn:G; [eauto |].
  destruct (get_guarded v "uri" G) as [uri ->].
  destruct (get_guarded v "cid" G) as [c ->]. simpl.
  destruct uri; eauto.
  destruct (String.prefix "at://" s); eauto.
Qed.

Lemma isBase64_long (v : value) :
  isBase64 v = true -> exists s, v = Str s /\ (20 <= String.length s)%nat.
Proof.
  destruct v; simpl; try discriminate.
  destruct (Nat.ltb_spec (String.length s) 20); [discriminate |].
  intros _. exists s. split; [reflexivity | assumption].
Qed.

(** C9. [detectEncoding] returns an encoding type for every value (null,
    boolean, number, string, array, object, and also [undefined] and byte
    arrays), without throwing; and whatever it classifies as base64 is a
    string of at least 20 characters. *)
Theorem detectEncoding_total (v : value) :
  (exists e, detectEncoding v = Ok e) /\
  (detectEncoding v = Ok base64 ->
   exists s, v = Str s /\ (20 <= String.length s)%nat) /\
  (forall s, v = Str s -> (String.length s < 20)%nat ->
   detectEncoding v <> Ok base64).
Proof.
  assert (Hb64 : detectEncoding v = Ok base64 -> isBase64 v = true).
  { unfold detectEncoding.
    destruct (isAtUri v); [discriminate |].
    destruct (isDid v); [discriminate |].
    destruct (isBlobRef_returns v) as [[] ->]; simpl; [discriminate |].
    destruct (isStrongRef_returns v) as [[] ->]; simpl; [discriminate |].
    destruct (match v with Str s => Tid.isTid s | _ => false end);
      [discriminate |].
    destruct (isDatetime v); [discriminate |].
    destruct (isCid v); [discriminate |].
    destruct (isBase64 v); [reflexivity |].
    destruct (isBytes v); discriminate. }
  split; [| split].
  - unfold detectEncoding.
    destruct (isAtUri v); [eauto |].
    destruct (isDid v); [eauto |].
    destruct (isBlobRef_returns v) as [[] ->]; simpl; [eauto |].
    destruct (isStrongRef_returns v) as [[] ->]; simpl; [eauto |].
    repeat match goal with
           | |- context [if ?c then _ else _] => destruct c; [eauto |]
           end.
    eauto.
  - intros H. apply isBase64_long, Hb64, H.
  - intros s -> Hlt H.
    destruct (isBase64_long _ (Hb64 H)) as (s' & [= <-] & Hlen). lia.
Qed.

Lemma detectEncoding_total_witness :
  (String.length "aGVsbG8=" < 20)%nat /\
  detectEncoding (Str "aGVsbG8=") <> Ok base64.
Proof.
  split; [simpl; lia |].
  apply (proj2 (proj2 (detectEncoding_total (Str "aGVsbG8="))) "aGVsbG8=");
    [reflexivity | simpl; lia].
Defined.

End DetectTheory.

(** ** The built-in [Map] *)
Module JsMapTheory.
Section Facts.
Context {K E : Type} `{EqDecision K}.
Implicit Types (m : JsMap.t K E) (k key : K) (e : E).

Lemma get_delete_eq m key : JsMap.get (JsMap.delete m key) key = None.
Proof.
  induction m as [| [k x] m IH]; [reflexivity |].
  unfold JsMap.delete in *. rewrite filter_cons. simpl.
  destruct (decide (k <> key)) as [Hne | Heq]; [| exact IH].
  simpl. destruct (decide (k = key)); [contradiction | exact IH].
Qed.

Lemma get_delete_ne m key k :
  k <> key -> JsMap.get (JsMap.delete m key) k = JsMap.get m k.
Proof.
  intros Hk. induction m as [| [k' x] m IH]; [reflexivity |].
  unfold JsMap.delete in *. rewrite filter_cons. simpl.
  destruct (decide (k' <> key)) as [Hne | Heq]; simpl.
  - destruct (decide (k' = k)); [reflexivity | exact IH].
  - destruct (decide (k' = k)) as [-> | _]; [| exact IH].
    exfalso. apply Heq. exact Hk.
Qed.

Lemma get_None m key : JsMap.get m key = None <-> key ∉ JsMap.keys m.
Proof.
  induction m as [| [k x] m IH]; simpl.
  - split; [intros _; apply not_elem_of_nil | reflexivity].
  - rewrite not_elem_of_cons.
    destruct (decide (k = key)) as [-> | Hne].
    + split; [discriminate | intros [Hc _]; contradiction].
    + rewrite IH. split; [intros Hn; split; [congruence | exact Hn]
                         | intros [_ Hn]; exact Hn].
Qed.

Lemma set_absent m key e :
  JsMap.get m key = None -> JsMap.set m key e = m ++ [(key, e)].
Proof.
  induction m as [| [k x] m IH]; simpl; [reflexivity |].
  destruct (decide (k = key)); [discriminate |].
  intros Hn. rewrite IH by exact Hn. reflexivity.
Qed.

Lemma get_app_absent m key e : 
  JsMap.get m key = None -> JsMap.get (m ++ [(key, e)]) key = Some e.
Proof.
  induction m as [| [k x] m IH]; simpl.
  - intros _. destruct (decide (key = key)); [reflexivity | contradiction].
  - destruct (decide (k = key)); [discriminate | exact IH].
Qed.

Lemma get_app_ne m key k e :
  k <> key -> JsMap.get (m ++ [(key, e)]) k = JsMap.get m k.
Proof.
  intros Hk. induction m as [| [k' x] m IH]; simpl.
  - destruct (decide (key = k)); [congruence | reflexivity].
  - destruct (decide (k' = k)); [reflexivity | exact IH].
Qed.

Lemma keys_delete m key :
  JsMap.keys (JsMap.delete m key) = filter (fun k => k <> key) (JsMap.keys m).
Proof.
  induction m as [| [k x] m IH]; [reflexivity |].
  unfold JsMap.delete, JsMap.keys in *. rewrite fmap_cons, !filter_cons.
  cbn [fst].
  destruct (decide (k <> key)); [rewrite fmap_cons |]; rewrite IH;
    reflexivity.
Qed.

Lemma size_delete_le m key :
  JsMap.size (JsMap.delete m key) <= JsMap.size m.
Proof.
  unfold JsMap.size, JsMap.delete.
  pose proof (length_filter (fun p : K * E => p.1 <> key) m). lia.
Qed.

Lemma size_delete_lt m key :
  key ∈ JsMap.keys m -> JsMap.size (JsMap.delete m key) < JsMap.size m.
Proof.
  unfold JsMap.size, JsMap.delete.
  induction m as [| [k x] m IH]; intros Hin.
  - apply elem_of_nil in Hin. contradiction.
  - rewrite filter_cons. simpl fst.
    pose proof (length_filter (fun p : K * E => p.1 <> key) m).
    destruct (decide (k <> key)) as [Hne | Heq]; simpl length.
    + simpl in Hin. apply elem_of_cons in Hin as [-> | Hin];
        [contradiction |].
      specialize (IH Hin). lia.
    + lia.
Qed.

End Facts.
End JsMapTheory.

(** ** The LRU cache with expiry *)
Module LruTheory.
Import Lru JsMapTheory.

Section Facts.
Context {K V : Type} `{EqDecision K}.
Implicit Types (c : LRUCache K V) (key k : K) (v : V) (log : list K).

Lemma get_after_deletes (m : JsMap.t K (entry V)) key (o : option K) :
  JsMap.get
    (match o with
     | Some firstKey => JsMap.delete (JsMap.delete m key) firstKey
     | None => JsMap.delete m key
     end) key = None.
Proof.
  destruct o as [fk |]; [| apply get_delete_eq].
  destruct (decide (key = fk)) as [-> | Hne]; [apply get_delete_eq |].
  rewrite get_delete_ne by exact Hne. apply get_delete_eq.
Qed.

Lemma set_cache c now key v :
  exists m, JsMap.get m key = None /\
    cache (set c now key v) = m ++ [(key, mkEntry v (now + ttl c))] /\
    m = (if maxSize c <=? JsMap.size (JsMap.delete (cache c) key) then
           match JsMap.first_key (JsMap.delete (cache c) key) with
           | Some firstKey =>
               JsMap.delete (JsMap.delete (cache c) key) firstKey
           | None => JsMap.delete (cache c) key
           end
         else JsMap.delete (cache c) key).
Proof.
  eexists. split; [| split; [| reflexivity]].
  - destruct (maxSize c <=? _); [apply get_after_deletes |
                                 apply get_delete_eq].
  - unfold set. simpl. apply set_absent.
    destruct (maxSize c <=? _); [apply get_after_deletes |
                                 apply get_delete_eq].
Qed.

(** A [set] stores the key with the expiry [now + ttl]. *)
Lemma set_stored_at c now key v : stored_at (set c now key v) key now.
Proof.
  destruct (set_cache c now key v) as (m & Hm & Hc & _).
  exists (mkEntry v (now + ttl c)). rewrite Hc.
  split; [apply get_app_absent; exact Hm | reflexivity].
Qed.

Lemma expired_miss c key (storedAt t t' : Z) :
  stored_at c key storedAt \/ JsMap.get (cache c) key = None ->
  storedAt + ttl c < t ->
  (get c t key).1 = None /\
  JsMap.get (cache (get c t key).2) key = None /\
  (has (get c t key).2 t' key).1 = false /\
  (has c t key).1 = false /\
  JsMap.get (cache (has c t key).2) key = None.
Proof.
  intros [(e & He & Hexp) | Habs] Ht; unfold get, has.
  - rewrite He.
    destruct (Z.ltb_spec (expires e) t) as [_ | Hge]; [| lia].
    simpl. rewrite get_delete_eq. repeat split; reflexivity.
  - rewrite Habs. simpl. rewrite Habs. repeat split; assumption.
Qed.

Lemma absent_delete (m : JsMap.t K (entry V)) key k :
  JsMap.get m k = None -> JsMap.get (JsMap.delete m key) k = None.
Proof.
  intros Hk. destruct (decide (k = key)) as [-> | Hne].
  - apply get_delete_eq.
  - rewrite get_delete_ne by exact Hne. exact Hk.
Qed.

Lemma get_delete_cases (m : JsMap.t K (entry V)) key k :
  JsMap.get (JsMap.delete m key) k = JsMap.get m k
  \/ JsMap.get (JsMap.delete m key) k = None.
Proof.
  destruct (decide (k = key)) as [-> | Hne].
  - right. apply get_delete_eq.
  - left. apply get_delete_ne. exact Hne.
Qed.

(** Operations other than a [set] of the key leave its entry as it is, or
    remove it. *)
Lemma stored_at_step c log key storedAt (o : op K V) :
  ~ sets key o ->
  stored_at c key storedAt \/ JsMap.get (cache c) key = None ->
  (stored_at (apply_op (c, log) o).1 key storedAt
   \/ JsMap.get (cache (apply_op (c, log) o).1) key = None)
  /\ ttl (apply_op (c, log) o).1 = ttl c.
Proof.
  intros Hns Hkeep.
  assert (Hsub : forall c', ttl c' = ttl c ->
    (JsMap.get (cache c') key = JsMap.get (cache c) key
     \/ JsMap.get (cache c') key = None) ->
    stored_at c' key storedAt \/ JsMap.get (cache c') key = None).
  { intros c' Httl [Hsame | Hnone]; [| right; exact Hnone].
    destruct Hkeep as [(e & He & Hexp) | Habs].
    - left. exists e. rewrite Hsame, Httl. split; assumption.
    - right. rewrite Hsame. exact Habs. }
  destruct o as [now k0 | now k0 v | now k0 |]; simpl in *.
  - unfold get. destruct (JsMap.get (cache c) k0) as [e |] eqn:E;
      [| split; [exact Hkeep | reflexivity]].
    destruct (expires e <? now); simpl;
      (split; [| reflexivity]); apply Hsub; try reflexivity; simpl.
    + apply get_delete_cases.
    + left. rewrite set_absent by apply get_delete_eq.
      destruct (decide (key = k0)) as [-> | Hne].
      * rewrite get_app_absent by apply get_delete_eq. symmetry. exact E.
      * rewrite get_app_ne by exact Hne. apply get_delete_ne. exact Hne.
  - split; [| reflexivity]. apply Hsub; [reflexivity |].
    destruct (set_cache c now k0 v) as (m & _ & -> & ->).
    rewrite get_app_ne by (intros ->; apply Hns; reflexivity).
    destruct (maxSize c <=? _);
      [destruct (JsMap.first_key _) as [fk |] |].
    + destruct (get_delete_cases (JsMap.delete (cache c) k0) fk key)
        as [-> | ->]; [| right; reflexivity].
      apply get_delete_cases.
    + apply get_delete_cases.
    + apply get_delete_cases.
  - unfold has. destruct (JsMap.get (cache c) k0) as [e |] eqn:E;
      [| split; [exact Hkeep | reflexivity]].
    destruct (expires e <? now); simpl;
      [| split; [exact Hkeep | reflexivity]].
    split; [| reflexivity]. apply Hsub; [reflexivity |]. simpl.
    apply get_delete_cases.
  - split; [right |]; reflexivity.
Qed.

Lemma stored_at_run (ops : list (op K V)) c log key storedAt :
  Forall (fun o => ~ sets key o) ops ->
  stored_at c key storedAt \/ JsMap.get (cache c) key = None ->
  (stored_at (run_ops ops (c, log)).1 key storedAt
   \/ JsMap.get (cache (run_ops ops (c, log)).1) key = None)
  /\ ttl (run_ops ops (c, log)).1 = ttl c.
Proof.
  revert c log. induction ops as [| o ops IH]; intros c log Hops Hkeep.
  - split; [exact Hkeep | reflexivity].
  - inversion Hops as [| ? ? Ho Hrest]; subst.
    destruct (stored_at_step c log key storedAt o Ho Hkeep) as [Hk Httl].
    change (run_ops (o :: ops) (c, log)) with (run_ops ops (apply_op (c, log) o)).
    destruct (apply_op (c, log) o) as [c' log'].
    destruct (IH c' log' Hrest Hk) as [Hk' Httl'].
    split; [exact Hk' | simpl in Httl; congruence].
Qed.

(** C5. A key is stored at [storedAt]; whatever operations follow, short
    of storing it again, once the time is past [storedAt + ttl] a [get]
    of the key is a miss and leaves no entry, so that a later [has] is
    false; and [has] itself reports the key as absent and leaves no
    entry. *)
Theorem expired_entry_is_missed c key v (storedAt : Z)
    (ops : list (op K V)) (t t' : Z) :
  Forall (fun o => ~ sets key o) ops ->
  storedAt + ttl c < t ->
  let c1 := (run_ops ops (set c storedAt key v, [])).1 in
  (get c1 t key).1 = None /\
  JsMap.get (cache (get c1 t key).2) key = None /\
  (has (get c1 t key).2 t' key).1 = false /\
  (has c1 t key).1 = false /\
  JsMap.get (cache (has c1 t key).2) key = None.
Proof.
  intros Hops Ht c1.
  destruct (stored_at_run ops (set c storedAt key v) [] key storedAt Hops)
    as [Hkeep Httl].
  { left. apply set_stored_at. }
  apply (expired_miss c1 key storedAt t t' Hkeep).
  fold c1 in Httl. rewrite Httl. exact Ht.
Qed.






Lemma keys_app (m : JsMap.t K (entry V)) key (e : entry V) :
  JsMap.keys (m ++ [(key, e)]) = JsMap.keys m ++ [key].
Proof. unfold JsMap.keys. rewrite fmap_app. reflexivity. Qed.

Lemma size_app (m : JsMap.t K (entry V)) (p : K * entry V) :
  JsMap.size (m ++ [p]) = JsMap.size m + 1.
Proof. unfold JsMap.size. rewrite length_app. simpl. lia. Qed.







(** C10. In a cache that is not over its capacity, and so in a full one,
    a [set] of a key that is present removes no other entry: the entries
    of the other keys are kept in their order, the key is bound to the new
    value with a new expiry and moved to the last, most recently used,
    position. A key other than the one set can only disappear when the
    key set was absent. *)
Theorem set_present_key c now key v :
  size c <= maxSize c ->
  (key ∈ JsMap.keys (cache c) ->
   cache (set c now key v)
   = JsMap.delete (cache c) key ++ [(key, mkEntry v (now + ttl c))]
   /\ (forall k, k ∈ JsMap.keys (cache (set c now key v))
                 <-> k ∈ JsMap.keys (cache c))
   /\ (forall k, k <> key ->
         JsMap.get (cache (set c now key v)) k = JsMap.get (cache c) k)
   /\ JsMap.get (cache (set c now key v)) key
      = Some (mkEntry v (now + ttl c))
   /\ last (JsMap.keys (cache (set c now key v))) = Some key) /\
  (forall k, k <> key -> k ∈ JsMap.keys (cache c) ->
     k ∉ JsMap.keys (cache (set c now key v)) ->
     key ∉ JsMap.keys (cache c)).
Proof.
  intros Hsize.
  assert (Hpresent : key ∈ JsMap.keys (cache c) ->
    cache (set c now key v)
    = JsMap.delete (cache c) key ++ [(key, mkEntry v (now + ttl c))]).
  { intros Hin.
    destruct (set_cache c now key v) as (m & _ & Hc & Hdef).
    rewrite Hc. f_equal. rewrite Hdef.
    pose proof (size_delete_lt (cache c) key Hin). unfold size in Hsize.
    destruct (Z.leb_spec (maxSize c)
                (JsMap.size (JsMap.delete (cache c) key))); [lia |].
    reflexivity. }
  assert (Hkeys : key ∈ JsMap.keys (cache c) ->
    forall k, k ∈ JsMap.keys (cache (set c now key v))
              <-> k ∈ JsMap.keys (cache c)).
  { intros Hin k. rewrite (Hpresent Hin), keys_app, keys_delete.
    rewrite elem_of_app, list_elem_of_filter, list_elem_of_singleton.
    split.
    - intros [[_ Hk] | ->]; assumption.
    - intros Hk. destruct (decide (k = key)) as [-> | Hne];
        [right; reflexivity | left; split; assumption]. }
  split.
  - intros Hin. split; [exact (Hpresent Hin) |].
    split; [exact (Hkeys Hin) |].
    rewrite (Hpresent Hin). split; [| split].
    + intros k Hk. rewrite get_app_ne by exact Hk.
      apply get_delete_ne. exact Hk.
    + apply get_app_absent, get_delete_eq.
    + rewrite keys_app. apply last_snoc.
  - intros k Hne Hk Hgone Hin. apply Hgone. apply (Hkeys Hin). exact Hk.
Qed.

End Facts.

Lemma expired_entry_is_missed_witness :
  let ops := [OpGet 10 "a"%string; OpSet 20 "b"%string 8%nat] in
  Forall (fun o => ~ sets "a"%string o) ops /\ 5 + 1000 < 1006 /\
  let c1 := (run_ops ops (set (create 2 1000) 5 "a"%string 7%nat, [])).1 in
  (get c1 1006 "a"%string).1 = None /\
  (has (get c1 1006 "a"%string).2 1007 "a"%string).1 = false /\
  (has c1 1006 "a"%string).1 = false.
Proof.
  intros ops.
  assert (Hops : Forall (fun o : op string nat => ~ sets "a"%string o) ops).
  { repeat constructor; simpl; [tauto | discriminate]. }
  assert (Ht : 5 + 1000 < 1006) by lia.
  split; [exact Hops |]. split; [exact Ht |]. intros c1.
  destruct (expired_entry_is_missed (create 2 1000) "a"%string 7%nat 5 ops
              1006 1007 Hops Ht) as (H1 & _ & H3 & H4 & _).
  repeat split; assumption.
Defined.



Lemma set_present_key_witness :
  let c := set (set (create 2 1000) 0 "a"%string 1%nat) 1 "b"%string 2%nat in
  size c <= maxSize c /\ size c = maxSize c /\
  cache (set c 5 "a"%string 9%nat)
  = [("b"%string, mkEntry 2%nat 1001); ("a"%string, mkEntry 9%nat 1005)].
Proof.
  intros c.
  assert (Hsize : size c <= maxSize c) by (vm_compute; discriminate).
  split; [exact Hsize |]. split; [reflexivity |].
  destruct (set_present_key c 5 "a"%string 9%nat Hsize) as [Hpresent _].
  destruct Hpresent as (Hset & _).
  - vm_compute. apply elem_of_cons. left. reflexivity.
  - exact Hset.
Defined.

End LruTheory.

(** ** The request coalescer *)
Module MemoTheory.
Import Memo JsMapTheory.
Local Open Scope nat_scope.

Section Facts.
Context {R : Type}.
Implicit Types (s : state R) (key k : string) (p q : nat)
  (c : Lru.LRUCache string R).

Lemma absent_after_delete {E : Type} (m : JsMap.t string E) key k :
  JsMap.get m k = None -> JsMap.get (JsMap.delete m key) k = None.
Proof.
  intros Hk. destruct (decide (k = key)) as [-> | Hne].
  - apply get_delete_eq.
  - rewrite get_delete_ne by exact Hne. exact Hk.
Qed.

Lemma absent_after_get c now key k :
  JsMap.get (Lru.cache c) k = None ->
  JsMap.get (Lru.cache (Lru.get c now key).2) k = None.
Proof.
  intros Hk. unfold Lru.get.
  destruct (JsMap.get (Lru.cache c) key) as [e |] eqn:E; [| exact Hk].
  destruct (Lru.expires e <? now)%Z; simpl.
  - apply absent_after_delete. exact Hk.
  - assert (k <> key) by congruence.
    rewrite set_absent by apply get_delete_eq.
    rewrite get_app_ne by assumption.
    apply absent_after_delete. exact Hk.
Qed.

Lemma miss_absent c now key :
  (Lru.get c now key).1 = None ->
  JsMap.get (Lru.cache (Lru.get c now key).2) key = None.
Proof.
  unfold Lru.get.
  destruct (JsMap.get (Lru.cache c) key) as [e |] eqn:E;
    [| intros _; exact E].
  destruct (Lru.expires e <? now)%Z; simpl; [| discriminate].
  intros _. apply get_delete_eq.
Qed.

Lemma get_absent c now key :
  JsMap.get (Lru.cache c) key = None -> Lru.get c now key = (None, c).
Proof. intros E. unfold Lru.get. rewrite E. reflexivity. Qed.

Lemma absent_after_set c now key (r : R) k :
  k <> key -> JsMap.get (Lru.cache c) k = None ->
  JsMap.get (Lru.cache (Lru.set c now key r)) k = None.
Proof.
  intros Hne Hk.
  destruct (LruTheory.set_cache c now key r) as (m & _ & -> & ->).
  rewrite get_app_ne by exact Hne.
  destruct (Lru.maxSize c <=? _)%Z;
    [destruct (JsMap.first_key _) |];
    repeat apply absent_after_delete; exact Hk.
Qed.

Lemma coherent_init (maxSize ttl : Z) : coherent (@init R maxSize ttl).
Proof.
  split; simpl.
  - intros key p. split; [discriminate |].
    rewrite lookup_nil. discriminate.
  - intros key p. discriminate.
Qed.

Lemma coherent_call s now key : coherent s -> coherent (call s now key).1.
Proof.
  intros [Hmap Hcache]. unfold call.
  destruct (Lru.get (cache s) now key) as [cached cache'] eqn:G.
  assert (Hkeep : forall k, JsMap.get (Lru.cache (cache s)) k = None ->
                            JsMap.get (Lru.cache cache') k = None).
  { intros k Hk. pose proof (absent_after_get (cache s) now key k Hk) as H.
    rewrite G in H. exact H. }
  destruct cached as [r |].
  { split; simpl; [exact Hmap |]. intros k p Hk. eauto. }
  assert (Hmiss : JsMap.get (Lru.cache cache') key = None).
  { pose proof (miss_absent (cache s) now key) as H.
    rewrite G in H. apply H. reflexivity. }
  destruct (JsMap.get (inflight s) key) as [pending |] eqn:F.
  { split; simpl; [exact Hmap |]. intros k p Hk. eauto. }
  split; simpl.
  - intros k p. rewrite set_absent by exact F.
    destruct (decide (k = key)) as [-> | Hne].
    + rewrite get_app_absent by exact F. split.
      * intros [= <-]. rewrite lookup_app_r by lia.
        rewrite Nat.sub_diag. reflexivity.
      * intros Hp.
        destruct (decide (p < length (started s))) as [Hlt | Hge].
        -- rewrite lookup_app_l in Hp by exact Hlt.
           apply Hmap in Hp. congruence.
        -- apply lookup_lt_Some in Hp as Hb.
           rewrite length_app in Hb. simpl in Hb. f_equal. lia.
    + rewrite get_app_ne by exact Hne. rewrite Hmap. split.
      * intros Hp. apply lookup_app_l_Some. exact Hp.
      * intros Hp.
        destruct (decide (p < length (started s))) as [Hlt | Hge].
        -- rewrite lookup_app_l in Hp by exact Hlt. exact Hp.
        -- rewrite lookup_app_r in Hp by lia.
           destruct (p - length (started s)) as [| n]; simpl in Hp;
             [congruence | discriminate Hp].
  - intros k p. rewrite set_absent by exact F.
    destruct (decide (k = key)) as [-> | Hne]; [intros _; exact Hmiss |].
    rewrite get_app_ne by exact Hne. intros Hk. eauto.
Qed.

Lemma coherent_settle s now p (o : settlement R) :
  coherent s -> coherent (settle s now p o).
Proof.
  intros [Hmap Hcache]. unfold settle.
  destruct (started s !! p) as [[key0 []] |] eqn:E;
    try (split; assumption).
  assert (Hbound : p < length (started s)) by (eapply lookup_lt_Some; eauto).
  assert (Hmap' : forall key q,
    JsMap.get (JsMap.delete (inflight s) key0) key = Some q
    <-> <[p := mkComputation key0 true]> (started s) !! q
        = Some (mkComputation key false)).
  { intros key q.
    destruct (decide (key = key0)) as [-> | Hne].
    - rewrite get_delete_eq. split; [discriminate |].
      destruct (decide (q = p)) as [-> | Hq].
      + rewrite list_lookup_insert_eq by exact Hbound. discriminate.
      + rewrite list_lookup_insert_ne by congruence.
        intros Hq'. apply Hmap in Hq'. apply Hmap in E. congruence.
    - rewrite get_delete_ne by exact Hne. rewrite Hmap.
      destruct (decide (q = p)) as [-> | Hq].
      + rewrite list_lookup_insert_eq by exact Hbound. rewrite E.
        split; congruence.
      + rewrite list_lookup_insert_ne by congruence. reflexivity. }
  assert (Hne : forall key q,
    JsMap.get (JsMap.delete (inflight s) key0) key = Some q ->
    key <> key0 /\ JsMap.get (inflight s) key = Some q).
  { intros key q Hq. destruct (decide (key = key0)) as [-> | Hne].
    - rewrite get_delete_eq in Hq. discriminate.
    - rewrite get_delete_ne in Hq by exact Hne. split; assumption. }
  destruct o as [result |]; split; simpl; try exact Hmap'.
  - intros key q Hq. destruct (Hne key q Hq) as [Hk Hq'].
    apply absent_after_set; [exact Hk | eauto].
  - intros key q Hq. destruct (Hne key q Hq) as [_ Hq']. eauto.
Qed.

Lemma coherent_step s (e : event R) : coherent s -> coherent (handle s e).
Proof.
  destruct e; [apply coherent_call | apply coherent_settle].
Qed.

Lemma coherent_run (evs : list (event R)) s :
  coherent s -> coherent (run_events evs s).
Proof.
  revert s. induction evs as [| e evs IH]; intros s Hs; [exact Hs |].
  apply IH, coherent_step, Hs.
Qed.

Lemma coherent_reachable s : reachable s -> coherent s.
Proof.
  intros (maxSize & ttl & evs & ->). apply coherent_run, coherent_init.
Qed.
Lemma call_promise s now key p :
  (call s now key).2 = Promise p ->
  JsMap.get (inflight (call s now key).1) key = Some p.
Proof.
  unfold call.
  destruct (Lru.get (cache s) now key) as [[r |] cache'];
    [discriminate |].
  destruct (JsMap.get (inflight s) key) as [pending |] eqn:F; simpl.
  - intros [= <-]. exact F.
  - intros [= <-]. rewrite set_absent by exact F.
    apply get_app_absent. exact F.
Qed.

Lemma call_joins s now key p :
  coherent s -> JsMap.get (inflight s) key = Some p ->
  (call s now key).2 = Promise p /\
  started (call s now key).1 = started s.
Proof.
  intros [_ Hcache] F. unfold call.
  rewrite (get_absent (cache s) now key (Hcache key p F)).
  rewrite F. split; reflexivity.
Qed.

Lemma inflight_stable s (e : event R) key p :
  coherent s -> JsMap.get (inflight s) key = Some p -> ~ settles p e ->
  JsMap.get (inflight (handle s e)) key = Some p.
Proof.
  intros [Hmap Hcache] F Hns.
  destruct e as [now k0 | now q o]; simpl in *.
  - unfold call.
    destruct (Lru.get (cache s) now k0) as [[r |] cache']; [exact F |].
    destruct (JsMap.get (inflight s) k0) as [pending |] eqn:F0;
      [exact F |].
    simpl. rewrite set_absent by exact F0.
    rewrite get_app_ne by congruence. exact F.
  - unfold settle.
    destruct (started s !! q) as [[k0 []] |] eqn:E; try exact F.
    assert (key <> k0).
    { intros ->. apply Hmap in E. congruence. }
    destruct o; simpl; rewrite get_delete_ne by assumption; exact F.
Qed.

Lemma inflight_stable_run (evs : list (event R)) s key p :
  coherent s -> JsMap.get (inflight s) key = Some p ->
  Forall (fun e => ~ settles p e) evs ->
  JsMap.get (inflight (run_events evs s)) key = Some p.
Proof.
  revert s. induction evs as [| e evs IH]; intros s Hs F Hevs;
    [exact F |].
  inversion Hevs as [| ? ? He Hrest]; subst.
  apply IH; [apply coherent_step; exact Hs | | exact Hrest].
  apply inflight_stable; assumption.
Qed.

(** C7. After a call for [key] was handed the promise of computation [p],
    and as long as [p] has not settled: another call for [key] is handed
    the same promise and starts no computation; when [p] settles, by
    success or by failure, [key] leaves the in-flight map; and after a
    failure the next call for [key] starts a new computation, with a
    promise other than [p]. The first call itself starts exactly one
    computation when [key] is neither cached nor in flight, and none
    otherwise. *)
Theorem coalescing s now key p (evs : list (event R)) :
  reachable s ->
  (call s now key).2 = Promise p ->
  Forall (fun e => ~ settles p e) evs ->
  let s1 := (call s now key).1 in
  let s2 := run_events evs s1 in
  (started s1 = started s \/
   started s1 = started s ++ [mkComputation key false]) /\
  (forall now',
      (call s2 now' key).2 = Promise p /\
      started (call s2 now' key).1 = started s2) /\
  (forall t o, JsMap.get (inflight (settle s2 t p o)) key = None) /\
  (forall t now',
      let s3 := settle s2 t p Rejected in
      exists q, q <> p /\ (call s3 now' key).2 = Promise q /\
        started (call s3 now' key).1
        = started s3 ++ [mkComputation key false]).
Proof.
  intros Hreach Hcall Hevs s1 s2.
  pose proof (coherent_reachable s Hreach) as Hs.
  pose proof (coherent_call s now key Hs) as Hs1. fold s1 in Hs1.
  pose proof (call_promise s now key p Hcall) as F1. fold s1 in F1.
  pose proof (coherent_run evs s1 Hs1) as Hs2. fold s2 in Hs2.
  pose proof (inflight_stable_run evs s1 key p Hs1 F1 Hevs) as F2.
  fold s2 in F2.
  destruct Hs2 as [Hmap2 Hcache2].
  pose proof (proj1 (Hmap2 key p) F2) as E2.
  assert (Hsettle : forall t o,
    inflight (settle s2 t p o) = JsMap.delete (inflight s2) key /\
    started (settle s2 t p o) = <[p := mkComputation key true]> (started s2)
    /\ (o = Rejected -> cache (settle s2 t p o) = cache s2)).
  { intros t o. unfold settle. rewrite E2.
    destruct o; repeat split; intros; discriminate. }
  split; [| split; [| split]].
  - unfold s1, call.
    destruct (Lru.get (cache s) now key) as [[r |] cache'];
      [left; reflexivity |].
    destruct (JsMap.get (inflight s) key);
      [left | right]; reflexivity.
  - intros now'. apply call_joins; [split; assumption | exact F2].
  - intros t o. destruct (Hsettle t o) as (-> & _).
    apply get_delete_eq.
  - intros t now' s3.
    destruct (Hsettle t Rejected) as (Hin & Hst & Hca).
    fold s3 in Hin, Hst, Hca. specialize (Hca eq_refl).
    exists (length (started s3)).
    assert (Hb : p < length (started s2)) by (eapply lookup_lt_Some; eauto).
    split; [rewrite Hst, length_insert; lia |].
    unfold call. rewrite Hca.
    rewrite (get_absent (cache s2) now' key (Hcache2 key p F2)).
    rewrite Hin, get_delete_eq. split; reflexivity.
Qed.
End Facts.

Lemma coalescing_witness :
  let s := @init nat 10 1000 in
  reachable s /\ (call s 0 "k"%string).2 = Promise 0 /\
  let s2 := run_events [Call 1 "other"%string] (call s 0 "k"%string).1 in
  (call s2 2 "k"%string).2 = Promise 0 /\
  length (started (call s2 2 "k"%string).1) = 2 /\
  JsMap.get (inflight (settle s2 3 0 Rejected)) "k"%string = None.
Proof.
  intros s.
  assert (Hr : reachable s) by (exists 10%Z, 1000%Z, []; reflexivity).
  assert (Hc : (call s 0 "k"%string).2 = Promise 0) by reflexivity.
  assert (He : Forall (fun e : event nat => ~ settles 0 e)
                 [Call 1 "other"%string]).
  { constructor; [simpl; tauto | constructor]. }
  split; [exact Hr |]. split; [exact Hc |]. intros s2.
  destruct (coalescing s 0%Z "k"%string 0 [Call 1 "other"%string] Hr Hc He)
    as (_ & Hsecond & Hgone & _).
  destruct (Hsecond 2%Z) as [Hp Hst].
  split; [exact Hp |].
  split; [etransitivity; [exact (f_equal length Hst) | reflexivity] |].
  exact (Hgone 3%Z Rejected).
Defined.

End MemoTheory.

(** ** The other methods of the event ring buffer *)
Module RingOpsTheory.
Import Ring RingTheory RingOps JsValue.
Local Open Scope nat_scope.

Section Facts.
Context {T : Type}.
Implicit Types (b : EventBuffer T) (xs ys : list T).

Lemma push_value_some b (x : T) : push_value b (Some x) = push b x.
Proof. reflexivity. Qed.


Lemma tracks_getRecent (N : nat) b xs (n : nat) :
  0 < N -> tracks N b xs ->
  getRecent b (Z.of_nat n) = Ok (Some <$> last_n (n `min` N) xs).
Proof.
  intros HN Htr. pose proof Htr as [Hmax Hlen Hcount Hhead Htail Hslots].
  unfold getRecent, last_n.
  replace (Z.min (Z.of_nat n) (Z.of_nat (count b)))
    with (Z.of_nat (n `min` count b)) by lia.
  destruct (Z.eqb_spec (Z.of_nat (n `min` count b)) 0) as [H0 | H0].
  - f_equal. rewrite drop_ge; [reflexivity | lia].
  - destruct (Z.ltb_spec (Z.of_nat (n `min` count b)) 0); [lia |].
    rewrite Nat2Z.id. f_equal.
    set (k := n `min` count b).
    replace (length xs - n `min` N) with (length xs - k) by lia.
    rewrite <- lookup_window.
    replace (length xs - (length xs - k)) with k by lia.
    apply list_fmap_ext. intros i j Hj.
    apply lookup_seq in Hj as [-> Hi]. simpl.
    unfold array_get. rewrite Hmax, Htail.
    replace ((length xs - count b) mod N + (count b - k) + i)
      with ((length xs - count b) mod N + (count b - k + i)) by lia.
    rewrite Nat.Div0.add_mod_idemp_l.
    replace (length xs - count b + (count b - k + i))
      with (length xs - k + i) by lia.
    rewrite Hslots by lia. reflexivity.
Qed.

Lemma tracks_clear (N : nat) b xs :
  0 < N -> tracks N b xs -> tracks N (clear b) [].
Proof.
  intros HN [Hmax _ _ _ _ _]. unfold clear. rewrite Hmax.
  apply tracks_create. exact HN.
Qed.



Lemma tracks_getAll_last (N : nat) b xs :
  0 < N -> tracks N b xs -> getAll b = Some <$> last_n N xs.
Proof. apply tracks_getAll. Qed.

End Facts.

(** X1. [getRecent(n)] of a buffer of capacity [N > 0] returns the most
    recent [min(n, count)] of the pushed events, oldest first (none for
    [n = 0]); for a negative [n] it throws. *)
Theorem getRecent_pushed {T : Type} (N : nat) (items : list T) (n : Z) :
  0 < N ->
  ((0 <= n)%Z ->
   getRecent (pushed N items) n
   = Ok (Some <$> last_n (Z.to_nat n `min` N) items)) /\
  ((n < 0)%Z -> getRecent (pushed N items) n = Thrown).
Proof.
  intros HN.
  assert (Htr : tracks N (pushed N items) items).
  { apply (tracks_pushMany N items (empty_buffer N) []); [exact HN |].
    apply tracks_create. exact HN. }
  split.
  - intros Hn. rewrite <- (Z2Nat.id n Hn) at 1.
    apply tracks_getRecent; assumption.
  - intros Hn. unfold getRecent.
    destruct (Z.eqb_spec (Z.min n (Z.of_nat (count (pushed N items)))) 0);
      [lia |].
    destruct (Z.ltb_spec (Z.min n (Z.of_nat (count (pushed N items)))) 0);
      [reflexivity | lia].
Qed.

Lemma getRecent_pushed_witness :
  0 < 3 /\ (0 <= 2)%Z /\ (-1 < 0)%Z /\
  getRecent (pushed 3 [10; 20; 30; 40]) 2 = Ok [Some 30; Some 40] /\
  getRecent (pushed 3 [10; 20; 30; 40]) (-1) = Thrown.
Proof.
  destruct (getRecent_pushed 3 [10; 20; 30; 40] 2) as [H _]; [lia |].
  destruct (getRecent_pushed 3 [10; 20; 30; 40] (-1)) as [_ H']; [lia |].
  split; [lia |]. split; [lia |]. split; [lia |].
  split; [apply H; lia | apply H'; lia].
Defined.



(** X3. A buffer of capacity [N > 0] is full exactly when at least [N]
    events were pushed; after [clear()] it is empty and goes on as a new
    buffer of the same capacity. *)
Theorem isFull_and_clear {T : Type} (N : nat) (items more : list T) :
  0 < N ->
  (isFull (pushed N items) = true <-> N <= length items) /\
  getAll (clear (pushed N items)) = [] /\
  getAll (pushMany (clear (pushed N items)) more) = Some <$> last_n N more.
Proof.
  intros HN.
  assert (Htr : tracks N (pushed N items) items).
  { apply (tracks_pushMany N items (empty_buffer N) []); [exact HN |].
    apply tracks_create. exact HN. }
  pose proof (tracks_clear N _ _ HN Htr) as Hcl.
  destruct Htr as [Hmax _ Hcount _ _ _].
  split; [| split].
  - unfold isFull. rewrite bool_decide_eq_true, Hmax, Hcount. lia.
  - rewrite (tracks_getAll_last N _ [] HN Hcl). reflexivity.
  - apply (tracks_getAll_last N _ more HN).
    apply (tracks_pushMany N more _ [] HN Hcl).
Qed.

Lemma isFull_and_clear_witness :
  0 < 2 /\ isFull (pushed 2 [1; 2; 3]) = true /\
  getAll (pushMany (clear (pushed 2 [1; 2; 3])) [7]) = [Some 7].
Proof.
  split; [lia |].
  destruct (isFull_and_clear 2 [1; 2; 3] [7]) as (Hfull & _ & Hpush);
    [lia |].
  split; [apply Hfull; simpl; lia | exact Hpush].
Defined.

End RingOpsTheory.

(** ** More on the LRU cache, [memoize] and the decode cache *)
Module LruMoreTheory.
Import Lru JsMapTheory LruTheory.

Section Facts.
Context {K V : Type} `{EqDecision K}.
Implicit Types (c : LRUCache K V) (key k : K) (v : V).

Lemma get_hit c t key (e : entry V) :
  JsMap.get (cache c) key = Some e -> t <= expires e ->
  (get c t key).1 = Some (value e) /\
  JsMap.get (cache (get c t key).2) key = Some e.
Proof.
  intros He Ht. unfold get. rewrite He.
  destruct (Z.ltb_spec (expires e) t); [lia |]. simpl.
  split; [reflexivity |].
  rewrite set_absent by apply get_delete_eq.
  apply get_app_absent, get_delete_eq.
Qed.

Lemma set_then_get c now key v (t t' : Z) :
  t <= now + ttl c -> t' <= now + ttl c ->
  (get (set c now key v) t key).1 = Some v /\
  (has (set c now key v) t key).1 = true /\
  (get (get (set c now key v) t key).2 t' key).1 = Some v.
Proof.
  intros Ht Ht'.
  destruct (set_stored_at c now key v) as (e & He & Hexp).
  destruct (set_cache c now key v) as (m & Hm & Hc & _).
  assert (Hv : value e = v).
  { rewrite Hc, get_app_absent in He by exact Hm. injection He as <-.
    reflexivity. }
  replace (ttl (set c now key v)) with (ttl c) in Hexp by reflexivity.
  destruct (get_hit (set c now key v) t key e He ltac:(lia)) as [H1 H2].
  destruct (get_hit _ t' key e H2 ltac:(lia)) as [H3 _].
  rewrite Hv in *. split; [exact H1 |]. split; [| exact H3].
  unfold has. rewrite He.
  destruct (Z.ltb_spec (expires e) t); [lia | reflexivity].
Qed.

(** X4. What [set] stored is what [get] returns, and [has] is true, at any
    time up to [now + ttl], whatever the capacity; and the [get] leaves the
    entry and its expiry as they are. *)
Theorem get_after_set c now key v (t t' : Z) :
  t <= now + ttl c -> t' <= now + ttl c ->
  (get (set c now key v) t key).1 = Some v /\
  (has (set c now key v) t key).1 = true /\
  (get (get (set c now key v) t key).2 t' key).1 = Some v.
Proof. apply set_then_get. Qed.

(** X5. [get] and [has] never touch the entry of another key, and they
    never add an entry. *)
Theorem lookup_leaves_others c t key k :
  k <> key ->
  JsMap.get (cache (get c t key).2) k = JsMap.get (cache c) k /\
  JsMap.get (cache (has c t key).2) k = JsMap.get (cache c) k /\
  size (get c t key).2 <= size c /\ size (has c t key).2 <= size c.
Proof.
  intros Hk. unfold get, has, size.
  destruct (JsMap.get (cache c) key) as [e |] eqn:E;
    [| repeat split; (reflexivity || lia)].
  pose proof (size_delete_le (cache c) key).
  assert (Hin : key ∈ JsMap.keys (cache c)).
  { destruct (decide (key ∈ JsMap.keys (cache c))) as [Hin | Hn];
      [exact Hin | apply get_None in Hn; congruence]. }
  pose proof (size_delete_lt (cache c) key Hin).
  destruct (expires e <? t); simpl.
  - rewrite get_delete_ne by exact Hk. repeat split; (reflexivity || lia).
  - rewrite set_absent by apply get_delete_eq.
    rewrite get_app_ne, get_delete_ne by exact Hk.
    rewrite size_app. repeat split; (reflexivity || lia).
Qed.
End Facts.

Lemma get_after_set_witness :
  let c := create 0 1000 : LRUCache string nat in
  5 <= 0 + ttl c /\
  (get (set c 0 "a"%string 7%nat) 5 "a"%string).1 = Some 7%nat /\
  (has (set c 0 "a"%string 7%nat) 5 "a"%string).1 = true.
Proof.
  intros c.
  assert (Ht : 5 <= 0 + ttl c) by (simpl; lia).
  destruct (get_after_set c 0 "a"%string 7%nat 5 5 Ht Ht) as (H1 & H2 & _).
  split; [exact Ht |]. split; assumption.
Defined.

Lemma lookup_leaves_others_witness :
  let c := set (set (create 2 10) 0 "a"%string 1%nat) 0 "b"%string 2%nat in
  "b"%string <> "a"%string /\
  JsMap.get (cache (get c 50 "a"%string).2) "b"%string
  = Some (mkEntry 2%nat 10).
Proof.
  intros c.
  assert (Hne : "b"%string <> "a"%string) by discriminate.
  split; [exact Hne |].
  destruct (lookup_leaves_others c 50 "a"%string "b"%string Hne) as (H & _).
  rewrite H. reflexivity.
Defined.

End LruMoreTheory.

(** ** [memoize] *)
Module MemoizeTheory.
Import JsValue Memoize JsMapTheory LruTheory.

Section Facts.
Context {Args R : Type}.
Variable fn : Args -> attempt (option R).
Variable keyFn : Args -> string.
Implicit Types (cache : Lru.LRUCache string (option R)) (args : Args).

Lemma faithful_create (maxSize ttl : Z) :
  faithful fn keyFn (Lru.create maxSize ttl).
Proof. intros key e H. discriminate H. Qed.

Lemma faithful_get cache now key :
  faithful fn keyFn cache -> faithful fn keyFn (Lru.get cache now key).2.
Proof.
  intros Hf k e. unfold Lru.get.
  destruct (JsMap.get (Lru.cache cache) key) as [e0 |] eqn:E;
    [| apply Hf].
  destruct (Lru.expires e0 <? now); simpl.
  - destruct (get_delete_cases (Lru.cache cache) key k) as [-> | ->];
      [apply Hf | discriminate].
  - rewrite set_absent by apply get_delete_eq.
    destruct (decide (k = key)) as [-> | Hne].
    + rewrite get_app_absent by apply get_delete_eq.
      intros [= <-]. apply (Hf key e0 E).
    + rewrite get_app_ne, get_delete_ne by exact Hne. apply Hf.
Qed.

Lemma faithful_set cache now args (result : option R) :
  fn args = Ok result ->
  faithful fn keyFn cache ->
  faithful fn keyFn (Lru.set cache now (keyFn args) result).
Proof.
  intros Hr Hf k e.
  destruct (set_cache cache now (keyFn args) result)
    as (m & Hm & -> & ->).
  destruct (decide (k = keyFn args)) as [-> | Hne].
  - rewrite get_app_absent.
    + intros [= <-]. exists args. split; [reflexivity | exact Hr].
    + destruct (Lru.maxSize cache <=? _);
        [apply get_after_deletes | apply get_delete_eq].
  - rewrite get_app_ne by exact Hne. intros He. apply (Hf k e).
    destruct (Lru.maxSize cache <=? _);
      [destruct (JsMap.first_key _) as [fk |] |].
    + destruct (get_delete_cases
                  (JsMap.delete (Lru.cache cache) (keyFn args)) fk k)
        as [E | E]; rewrite E in He; [| discriminate].
      rewrite get_delete_ne in He by exact Hne. exact He.
    + rewrite get_delete_ne in He by exact Hne. exact He.
    + rewrite get_delete_ne in He by exact Hne. exact He.
Qed.

Lemma faithful_memoized cache now args :
  faithful fn keyFn cache ->
  faithful fn keyFn (memoized fn keyFn cache now args).1.2 /\
  exists args', keyFn args' = keyFn args /\
    (memoized fn keyFn cache now args).1.1 = fn args'.
Proof.
  intros Hf. unfold memoized.
  pose proof (faithful_get cache now (keyFn args) Hf) as Hg.
  destruct (Lru.get cache now (keyFn args)) as [cached cache'] eqn:G.
  simpl in Hg.
  destruct (mjoin cached) as [r |] eqn:J; simpl.
  - split; [exact Hg |].
    unfold Lru.get in G.
    destruct (JsMap.get (Lru.cache cache) (keyFn args)) as [e |] eqn:E;
      [| injection G as <- _; discriminate J].
    destruct (Lru.expires e <? now);
      injection G as <- _; [discriminate J |].
    destruct (Hf _ _ E) as (args' & Hk & Hv).
    exists args'. split; [exact Hk |]. simpl in J. congruence.
  - destruct (fn args) as [result |] eqn:F; simpl.
    + split; [apply faithful_set; assumption |].
      exists args. split; [reflexivity | symmetry; exact F].
    + split; [exact Hg |].
      exists args. split; [reflexivity | symmetry; exact F].
Qed.

Lemma faithful_after_calls (calls : list (Z * Args)) cache :
  faithful fn keyFn cache -> faithful fn keyFn (after_calls fn keyFn calls cache).
Proof.
  revert cache. induction calls as [| [now a] calls IH]; intros cache Hf;
    [exact Hf |].
  simpl. apply IH. apply (faithful_memoized cache now a Hf).
Qed.

Lemma ttl_get cache now (key : string) :
  Lru.ttl (Lru.get cache now key).2 = Lru.ttl cache.
Proof.
  unfold Lru.get.
  destruct (JsMap.get (Lru.cache cache) key) as [e |];
    [destruct (Lru.expires e <? now) |]; reflexivity.
Qed.

Lemma ttl_after_calls (calls : list (Z * Args)) cache :
  Lru.ttl (after_calls fn keyFn calls cache) = Lru.ttl cache.
Proof.
  revert cache. induction calls as [| [n a] l IH]; intros c; [reflexivity |].
  simpl. rewrite IH. unfold memoized.
  pose proof (ttl_get c n (keyFn a)) as Hg.
  destruct (Lru.get c n (keyFn a)) as [cached c']. simpl in Hg.
  destruct (mjoin cached); simpl; [exact Hg |].
  destruct (fn a); simpl; [rewrite <- Hg; reflexivity | exact Hg].
Qed.

(** X6. When [keyFn] tells arguments apart, the memoized function returns
    what [fn] returns, or throws when [fn] throws, whatever calls came
    before; and a call repeated within the [ttl] of the first answers from
    the cache, without running [fn], when the result is not
    [undefined]. *)
Theorem memoized_transparent (maxSize ttl : Z) (calls : list (Z * Args))
    (now t : Z) (args : Args) :
  (forall a a', keyFn a = keyFn a' -> a = a') ->
  let cache := after_calls fn keyFn calls (Lru.create maxSize ttl) in
  (memoized fn keyFn cache now args).1.1 = fn args /\
  (forall r, t <= now + ttl -> fn args = Ok (Some r) ->
   (memoized fn keyFn cache now args).2 = true ->
   memoized fn keyFn (memoized fn keyFn cache now args).1.2 t args
   = (Ok (Some r), (Lru.get (memoized fn keyFn cache now args).1.2 t
                      (keyFn args)).2, false)).
Proof.
  intros Hinj cache.
  assert (Hf : faithful fn keyFn cache).
  { apply faithful_after_calls, faithful_create. }
  destruct (faithful_memoized cache now args Hf) as (_ & args' & Hk & Hr).
  split; [rewrite Hr; f_equal; apply Hinj; exact Hk |].
  intros r Ht Hfn Hran.
  unfold memoized at 2 3. unfold memoized in Hran |- *.
  destruct (Lru.get cache now (keyFn args)) as [cached cache'] eqn:G.
  destruct (mjoin cached) as [r0 |]; [discriminate Hran |].
  rewrite Hfn. cbn [fst snd].
  assert (Httl : Lru.ttl cache' = ttl).
  { pose proof (ttl_get cache now (keyFn args)) as Hg.
    rewrite G in Hg. simpl in Hg. rewrite Hg.
    unfold cache. rewrite ttl_after_calls. reflexivity. }
  destruct (LruMoreTheory.set_then_get cache' now (keyFn args) (Some r)
              t t) as (Hget & _); [lia | lia |].
  destruct (Lru.get (Lru.set cache' now (keyFn args) (Some r)) t
              (keyFn args)) as [cached2 cache2] eqn:G2.
  simpl in Hget. subst cached2. reflexivity.
Qed.
End Facts.

Lemma memoized_transparent_witness :
  let fn := fun s : string => Ok (Some (String.length s)) in
  let keyFn := fun s : string => s in
  (forall a a' : string, keyFn a = keyFn a' -> a = a') /\
  (memoized fn keyFn
     (after_calls fn keyFn [(0, "ab"%string)] (Lru.create 500 60000))
     1 "abc"%string).1.1 = Ok (Some 3%nat).
Proof.
  intros fn keyFn.
  assert (Hinj : forall a a' : string, keyFn a = keyFn a' -> a = a')
    by (intros a a' E; exact E).
  split; [exact Hinj |].
  apply (memoized_transparent fn keyFn 500 60000 [(0, "ab"%string)] 1 1
           "abc"%string Hinj).
Defined.

End MemoizeTheory.

(** ** The cache in front of [decodeValueInternal] *)
Module DecodeCacheTheory.
Import JsValue DecodeCache JsMapTheory LruTheory.
Local Open Scope string_scope.

Section Facts.
Context {DecodedValue : Type}.
Variable decodeValueInternal : value -> option string -> attempt DecodedValue.
Variable number_to_string : Q -> string.
Variable JSON_stringify : value -> attempt string.

Abbreviation getCacheKey := (getCacheKey number_to_string JSON_stringify).
Abbreviation decodeValue :=
  (decodeValue decodeValueInternal number_to_string JSON_stringify).

(** X7. The cache key of a string is made of the key hint and the first
    200 characters only. A value whose cache key was stored by a call less
    than the [ttl] ago is answered from the cache: the result is the one
    decoded for the earlier value, also when the two values differ. When
    the decoder throws, so does [decodeValue], and nothing is stored. A
    value without cache key is decoded anew with the cache left as it
    is. *)
Theorem decodeValue_by_cache_key
    (cache : Lru.LRUCache string DecodedValue) (now t : Z)
    (v1 v2 : value) (k1 k2 : option string) (cacheKey : string) :
  getCacheKey v1 k1 = Some cacheKey ->
  getCacheKey v2 k2 = Some cacheKey ->
  JsMap.get (Lru.cache cache) cacheKey = None ->
  t <= now + Lru.ttl cache ->
  (decodeValue cache now v1 k1).1 = decodeValueInternal v1 k1 /\
  (forall d, decodeValueInternal v1 k1 = Ok d ->
     (decodeValue (decodeValue cache now v1 k1).2 t v2 k2).1 = Ok d) /\
  (decodeValueInternal v1 k1 = Thrown ->
   decodeValue cache now v1 k1 = (Thrown, cache)) /\
  (forall (s1 s2 : string) (key : option string),
      substring 0 200 s1 = substring 0 200 s2 ->
      getCacheKey (Str s1) key = getCacheKey (Str s2) key) /\
  (forall (v : value) (key : option string),
      getCacheKey v key = None ->
      decodeValue cache now v key = (decodeValueInternal v key, cache)).
Proof.
  intros H1 H2 Habs Ht.
  assert (Hfirst : decodeValue cache now v1 k1
            = match decodeValueInternal v1 k1 with
              | Ok d => (Ok d, Lru.set cache now cacheKey d)
              | Thrown => (Thrown, cache)
              end).
  { unfold DecodeCache.decodeValue. rewrite H1.
    unfold Lru.get. rewrite Habs. reflexivity. }
  split; [rewrite Hfirst; destruct (decodeValueInternal v1 k1); reflexivity |].
  split; [| split; [| split]].
  - intros d Hd. rewrite Hfirst, Hd. cbn [snd].
    unfold DecodeCache.decodeValue. rewrite H2.
    destruct (LruMoreTheory.set_then_get cache now cacheKey d t t Ht Ht)
      as (Hget & _).
    destruct (Lru.get _ t cacheKey) as [cached cache'].
    simpl in Hget. rewrite Hget. reflexivity.
  - intros Hd. rewrite Hfirst, Hd. reflexivity.
  - intros s1 s2 key E. simpl. rewrite E. reflexivity.
  - intros v key E. unfold DecodeCache.decodeValue. rewrite E. reflexivity.
Qed.
End Facts.

Lemma decodeValue_by_cache_key_witness :
  let decode := fun (v : value) (_ : option string) => Ok v in
  let text := fun _ : Q => "0" in
  let json := fun _ : value => @Thrown string in
  let cache := Lru.create 2000 300000 : Lru.LRUCache string value in
  long_x <> long_y /\
  (decodeValue decode text json
     (decodeValue decode text json cache 0 (Str long_x) None).2 1
     (Str long_y) None).1 = Ok (Str long_x).
Proof.
  intros decode text json cache.
  split; [intros E; vm_compute in E; discriminate E |].
  destruct (decodeValue_by_cache_key decode text json cache 0 1
              (Str long_x) (Str long_y) None None
              ("s::" ++ substring 0 200 long_x))
    as (_ & H & _).
  - vm_compute. reflexivity.
  - vm_compute. reflexivity.
  - reflexivity.
  - simpl. lia.
  - apply (H (Str long_x)). reflexivity.
Defined.

End DecodeCacheTheory.

(** ** The reconnecting socket *)
Module ReconnectTheory.
Import Reconnect.






Lemma quiet_after_close (o : options) (events : list event)
    (c : controller) :
  intentionalClose c = true ->
  Forall (fun e => ~ is_connect e) events ->
  intentionalClose (run o c events).1 = true /\
  forall timer delay, SetTimeout timer delay ∉ (run o c events).2.
Proof.
  revert c. induction events as [| e rest IH]; intros c Hc Hev.
  - split; [exact Hc |]. intros timer delay Hin.
    apply elem_of_nil in Hin. exact Hin.
  - inversion Hev as [| ? ? He Hrest]; subst. simpl.
    assert (Hstep : intentionalClose (handle o c e).1 = true /\
                    forall timer delay,
                      SetTimeout timer delay ∉ (handle o c e).2).
    { destruct e as [ready created | | | timer | |]; simpl.
      - exfalso. apply He. exact I.
      - split; [reflexivity |]. intros timer delay Hin.
        destruct (retryTimeout c), (socket c); simpl in Hin;
          repeat (apply elem_of_cons in Hin as [Hin | Hin];
                  [discriminate Hin |]);
          apply elem_of_nil in Hin; exact Hin.
      - split; [exact Hc |]. intros ? ? Hin. apply elem_of_nil in Hin.
        exact Hin.
      - unfold onclose. rewrite Hc. simpl.
        split; [exact Hc |]. intros ? ? Hin. apply elem_of_nil in Hin.
        exact Hin.
      - split; [exact Hc |]. intros ? ? Hin. apply elem_of_nil in Hin.
        exact Hin.
      - split; [exact Hc |]. intros ? ? Hin. apply elem_of_nil in Hin.
        exact Hin. }
    destruct (handle o c e) as [c' effects]. simpl in Hstep.
    destruct Hstep as [Hc' Hno].
    destruct (IH c' Hc' Hrest) as [Hc'' Hno'].
    destruct (run o c' rest) as [c'' effects']. simpl in *.
    split; [exact Hc'' |]. intros timer delay Hin.
    apply elem_of_app in Hin as [Hin | Hin];
      [exact (Hno _ _ Hin) | exact (Hno' _ _ Hin)].
Qed.

Lemma quiet_retry_count (o : options) (events : list event)
    (c : controller) :
  intentionalClose c = true -> retryCount c = 0 ->
  Forall (fun e => ~ is_connect e) events ->
  retryCount (run o c events).1 = 0.
Proof.
  revert c. induction events as [| e rest IH]; intros c Hc H0 Hev;
    [exact H0 |].
  inversion Hev as [| ? ? He Hrest]; subst. simpl.
  assert (Hstep : intentionalClose (handle o c e).1 = true /\
                  retryCount (handle o c e).1 = 0).
  { destruct e as [ready created | | | timer | |]; simpl;
      try (split; assumption); try (split; reflexivity).
    - exfalso. apply He. exact I.
    - split; [exact Hc | reflexivity].
    - unfold onclose. rewrite Hc. simpl. split; assumption. }
  destruct (handle o c e) as [c' effects]. simpl in Hstep.
  destruct Hstep as [Hc' H0'].
  specialize (IH c' Hc' H0' Hrest).
  destruct (run o c' rest) as [c'' effects']. exact IH.
Qed.

(** X9. [disconnect()] leaves no socket, no timer handle and a retry count
    of 0, cancelling the timer whose handle it held and closing the socket
    it held; and from then on, until [connect()] runs again, no close event
    schedules a retry and the count stays 0. *)
Theorem disconnect_stops_retries (o : options) (before after : list event) :
  Forall (fun e => ~ is_connect e) after ->
  let c := (run o initial before).1 in
  (disconnect c).1 = mkController None 0 None true /\
  (forall t, retryTimeout c = Some t -> ClearTimeout t ∈ (disconnect c).2) /\
  (forall s, socket c = Some s -> CloseSocket s ∈ (disconnect c).2) /\
  (forall timer delay,
      SetTimeout timer delay ∉ (run o (disconnect c).1 after).2) /\
  retryCount (run o (disconnect c).1 after).1 = 0.
Proof.
  intros Hafter c.
  split; [reflexivity |]. split; [| split; [| split]].
  - intros t Ht. unfold disconnect. rewrite Ht. simpl.
    apply elem_of_cons. left. reflexivity.
  - intros s Hs. unfold disconnect. rewrite Hs. simpl.
    apply elem_of_app. right. apply elem_of_cons. left. reflexivity.
  - apply quiet_after_close; [reflexivity | exact Hafter].
  - apply quiet_retry_count; [reflexivity | reflexivity | exact Hafter].
Qed.

Lemma disconnect_stops_retries_witness :
  Forall (fun e => ~ is_connect e) [OnClose 2%nat; OnOpen] /\
  let c := (run defaults initial
              [Connect None (Some 1%nat); OnClose 1%nat]).1 in
  (disconnect c).2 = [ClearTimeout 1%nat; CloseSocket 1%nat] /\
  (run defaults (disconnect c).1 [OnClose 2%nat; OnOpen]).2 = [] /\
  retryCount (run defaults (disconnect c).1 [OnClose 2%nat; OnOpen]).1 = 0.
Proof.
  assert (H : Forall (fun e => ~ is_connect e) [OnClose 2%nat; OnOpen]).
  { repeat constructor; simpl; tauto. }
  split; [exact H |]. intros c.
  destruct (disconnect_stops_retries defaults
              [Connect None (Some 1%nat); OnClose 1%nat]
              [OnClose 2%nat; OnOpen] H) as (_ & _ & _ & _ & H0).
  split; [reflexivity |]. split; [reflexivity | exact H0].
Defined.

End ReconnectTheory.

(** ** Strings *)
Module StrTheory.
Local Open Scope string_scope.

Lemma split_nonempty (c : ascii) (s : string) : Str.split c s <> [].
Proof.
  destruct s as [| a rest]; simpl; [discriminate |].
  destruct (Ascii.eqb a c); [discriminate |].
  destruct (Str.split c rest); discriminate.
Qed.

Lemma split_plain (c : ascii) (s : string) :
  Str.includes c s = false -> Str.split c s = [s].
Proof.
  induction s as [| a rest IH]; simpl; [reflexivity |].
  destruct (Ascii.eqb a c); simpl; [discriminate |].
  intros H. rewrite (IH H). reflexivity.
Qed.

Lemma split_app (c : ascii) (s t : string) :
  Str.includes c s = false ->
  Str.split c (s ++ String c t) = s :: Str.split c t.
Proof.
  induction s as [| a rest IH]; simpl.
  - intros _. rewrite Ascii.eqb_refl. reflexivity.
  - destruct (Ascii.eqb a c); simpl; [discriminate |].
    intros H. rewrite (IH H). reflexivity.
Qed.

Lemma strip_prefix_app (p s : string) : Str.strip_prefix p (p ++ s) = Some s.
Proof.
  induction p as [| a p IH]; simpl; [reflexivity |].
  rewrite Ascii.eqb_refl. exact IH.
Qed.

Lemma strip_prefix_inv (p s rest : string) :
  Str.strip_prefix p s = Some rest -> s = p ++ rest.
Proof.
  revert s. induction p as [| a p IH]; intros s; simpl.
  - intros [= ->]. reflexivity.
  - destruct s as [| b s]; [discriminate |].
    destruct (Ascii.eqb_spec a b) as [-> | _]; [| discriminate].
    intros H. rewrite (IH s H). reflexivity.
Qed.

Lemma split_parts (c : ascii) (s : string) :
  Forall (fun p => Str.includes c p = false) (Str.split c s) /\
  Str.join c (Str.split c s) = s.
Proof.
  induction s as [| a rest IH]; simpl; [| destruct IH as [IHf IHj]].
  - split; [repeat constructor | reflexivity].
  - pose proof (split_nonempty c rest) as Hne.
    destruct (Str.split c rest) as [| p ps]; [contradiction |].
    apply Forall_cons in IHf as [Hp Hps].
    destruct (Ascii.eqb a c) eqn:E.
    + apply Ascii.eqb_eq in E as ->. split.
      * constructor; [reflexivity | constructor; assumption].
      * rewrite <- IHj. reflexivity.
    + split.
      * constructor; [simpl; rewrite E; exact Hp | exact Hps].
      * rewrite <- IHj. destruct ps; reflexivity.
Qed.

Lemma append_empty (s : string) : s ++ "" = s.
Proof.
  induction s as [| a s IH]; [reflexivity |].
  change (String a (s ++ "") = String a s). rewrite IH. reflexivity.
Qed.

Lemma split_two (c : ascii) (s a b : string) (rest : list string) :
  Str.split c s = a :: b :: rest ->
  Str.includes c a = false /\ Str.includes c b = false /\
  exists tail, s = a ++ String c (b ++ tail) /\
               (tail = "" \/ exists t, tail = String c t).
Proof.
  intros E. destruct (split_parts c s) as [F J]. rewrite E in F, J.
  apply Forall_cons in F as [Ha F]. apply Forall_cons in F as [Hb _].
  split; [exact Ha |]. split; [exact Hb |].
  destruct rest as [| r rest].
  - exists "". split; [| left; reflexivity].
    rewrite <- J, append_empty. reflexivity.
  - exists (String c (Str.join c (r :: rest))).
    split; [| right; eauto]. rewrite <- J. reflexivity.
Qed.

Lemma includes_app (c : ascii) (a t : string) :
  Str.includes c (a ++ String c t) = true.
Proof.
  induction a as [| x a IH]; simpl.
  - rewrite Ascii.eqb_refl. reflexivity.
  - rewrite IH. apply orb_true_r.
Qed.

Lemma split_lookup (c : ascii) (s : string) (i : nat) (p : string) :
  Str.split c s !! i = Some p -> Str.includes c p = false.
Proof.
  intros H. destruct (split_parts c s) as [F _].
  rewrite Forall_lookup in F. exact (F i p H).
Qed.
End StrTheory.

(** ** AT-URIs *)
Module AtUriTheory.
Import JsValue AtUri StrTheory.
Local Open Scope string_scope.

Lemma parse_build (did collection rkey : string) :
  segment did -> segment collection -> segment rkey ->
  match_at_uri (buildAtUri did collection rkey)
  = Some (did, collection, rkey).
Proof.
  intros [Hd1 Hd2] [Hc1 Hc2] [Hr1 Hr2].
  unfold match_at_uri, buildAtUri.
  rewrite strip_prefix_app.
  change (did ++ "/" ++ collection ++ "/" ++ rkey)
    with (did ++ String "/" (collection ++ String "/" rkey)).
  rewrite split_app by exact Hd2. rewrite split_app by exact Hc2.
  rewrite split_plain by exact Hr2.
  rewrite Hd1, Hc1, Hr1. reflexivity.
Qed.

Lemma parse_inv (uri did collection rkey : string) :
  match_at_uri uri = Some (did, collection, rkey) ->
  uri = buildAtUri did collection rkey /\
  segment did /\ segment collection /\ segment rkey.
Proof.
  unfold match_at_uri.
  destruct (Str.strip_prefix "at://" uri) as [rest |] eqn:P; [| discriminate].
  apply strip_prefix_inv in P. subst uri.
  destruct (split_parts "/" rest) as [Hf Hj].
  destruct (Str.split "/" rest) as [| d [| c [| r [| x l]]]];
    try discriminate.
  destruct (Str.empty d) eqn:Ed; [discriminate |].
  destruct (Str.empty c) eqn:Ec; [discriminate |].
  destruct (Str.empty r) eqn:Er; [discriminate |].
  intros [= <- <- <-].
  apply Forall_cons in Hf as [Hd Hf].
  apply Forall_cons in Hf as [Hc Hf].
  apply Forall_cons in Hf as [Hr _].
  split; [| repeat split; assumption].
  unfold buildAtUri. rewrite <- Hj. reflexivity.
Qed.

(** X10. [parseAtUri] undoes [buildAtUri] for components that are not empty
    and hold no slash, and whatever it parses is the URI built from the
    three components it returns, each of them non-empty and without a
    slash; on every other string the decoding utility returns [null] and
    the record helper throws. *)
Theorem parseAtUri_buildAtUri (uri did collection rkey : string) :
  (segment did -> segment collection -> segment rkey ->
   parseAtUri (buildAtUri did collection rkey)
   = Some (did, collection, rkey) /\
   parseAtUri_strict (buildAtUri did collection rkey)
   = Ok (did, collection, rkey)) /\
  (parseAtUri uri = Some (did, collection, rkey) ->
   uri = buildAtUri did collection rkey /\
   segment did /\ segment collection /\ segment rkey) /\
  (parseAtUri uri = None <-> parseAtUri_strict uri = Thrown).
Proof.
  split; [| split].
  - intros Hd Hc Hr. unfold parseAtUri, parseAtUri_strict.
    rewrite (parse_build did collection rkey Hd Hc Hr).
    split; reflexivity.
  - apply parse_inv.
  - unfold parseAtUri, parseAtUri_strict.
    destruct (match_at_uri uri); split; (discriminate || reflexivity).
Qed.

Lemma parseAtUri_buildAtUri_witness :
  segment "did:plc:abc" /\ segment "app.bsky.feed.post" /\
  segment "3jzfcijpj2z2a" /\
  parseAtUri "at://did:plc:abc/app.bsky.feed.post/3jzfcijpj2z2a"
  = Some ("did:plc:abc", "app.bsky.feed.post", "3jzfcijpj2z2a").
Proof.
  assert (Hd : segment "did:plc:abc") by (split; reflexivity).
  assert (Hc : segment "app.bsky.feed.post") by (split; reflexivity).
  assert (Hr : segment "3jzfcijpj2z2a") by (split; reflexivity).
  split; [exact Hd |]. split; [exact Hc |]. split; [exact Hr |].
  destruct (parseAtUri_buildAtUri "" "did:plc:abc" "app.bsky.feed.post"
              "3jzfcijpj2z2a") as (H & _).
  apply (H Hd Hc Hr).
Defined.

(** X11. On a URI that [parseAtUri] accepts, [getRkeyFromUri] and
    [getCollectionFromUri] return the record key and the collection that
    [parseAtUri] returns. *)
Theorem parts_of_parsed_uri (uri did collection rkey : string) :
  parseAtUri uri = Some (did, collection, rkey) ->
  getRkeyFromUri uri = Some rkey /\
  getCollectionFromUri uri = Some collection.
Proof.
  intros H. apply parse_inv in H as (-> & [_ Hd] & [_ Hc] & [_ Hr]).
  unfold getRkeyFromUri, getCollectionFromUri, buildAtUri.
  change ("at://" ++ did ++ "/" ++ collection ++ "/" ++ rkey)
    with ("at:" ++ String "/" ("" ++ String "/"
            (did ++ String "/" (collection ++ String "/" rkey)))).
  rewrite !split_app by (assumption || reflexivity).
  rewrite split_plain by exact Hr.
  split; reflexivity.
Qed.

Lemma parts_of_parsed_uri_witness :
  parseAtUri "at://did:plc:abc/app.bsky.feed.post/3jzfcijpj2z2a"
  = Some ("did:plc:abc", "app.bsky.feed.post", "3jzfcijpj2z2a") /\
  getRkeyFromUri "at://did:plc:abc/app.bsky.feed.post/3jzfcijpj2z2a"
  = Some "3jzfcijpj2z2a".
Proof.
  assert (H : parseAtUri "at://did:plc:abc/app.bsky.feed.post/3jzfcijpj2z2a"
              = Some ("did:plc:abc", "app.bsky.feed.post", "3jzfcijpj2z2a"))
    by reflexivity.
  split; [exact H |].
  apply (parts_of_parsed_uri _ _ _ _ H).
Defined.

End AtUriTheory.

(** ** Timestamp identifiers: [isTid] and [tidToDate] together *)
Module TidCaseTheory.
Import Tid TidCase TidTheory.
Local Open Scope string_scope.

Lemma indexOf_from_spec (s : string) (c : ascii) (i : Z) :
  (indexOf_from s c i = -1 /\ ~ In c (list_ascii_of_string s)) \/
  (i <= indexOf_from s c i /\ In c (list_ascii_of_string s)).
Proof.
  revert i. induction s as [| a s IH]; intros i; simpl.
  - left. split; [reflexivity | tauto].
  - destruct (Ascii.eqb_spec a c) as [-> | Hne].
    + right. split; [lia | left; reflexivity].
    + destruct (IH (i + 1)) as [[H1 H2] | [H1 H2]].
      * left. split; [exact H1 | intros [E | E]; tauto].
      * right. split; [lia | right; exact H2].
Qed.

Lemma includes_alphabet (c : ascii) :
  includes TID_CHARS c = true <-> alphabet c.
Proof.
  unfold includes, indexOf, alphabet.
  destruct (indexOf_from_spec TID_CHARS c 0) as [[H1 H2] | [H1 H2]].
  - rewrite H1. split; [discriminate | intros H; destruct (H2 H)].
  - destruct (Z.eqb_spec (indexOf_from TID_CHARS c 0) (-1)); [lia |].
    split; [intros _; exact H2 | reflexivity].
Qed.

Lemma lower_length (s : string) : String.length (lower s) = String.length s.
Proof. induction s; simpl; congruence. Qed.

Lemma lower_substring (m : nat) (s : string) :
  substring 0 m (lower s) = lower (substring 0 m s).
Proof.
  revert s. induction m as [| m IH]; intros [| c s]; simpl;
    try reflexivity.
  f_equal. apply IH.
Qed.

Lemma forallb_valid (s : string) :
  forallb (fun c => includes TID_CHARS (toLowerCase c))
          (list_ascii_of_string s) = true
  <-> valid_chars (lower s).
Proof.
  induction s as [| c s IH]; simpl.
  - split; [constructor | reflexivity].
  - rewrite andb_true_iff, IH, includes_alphabet.
    symmetry. apply valid_chars_cons.
Qed.

Lemma decode_chars_lower (s : string) (acc : Z) :
  valid_chars (lower s) ->
  decode_chars s acc = decode_chars (lower s) acc.
Proof.
  revert acc. induction s as [| c s IH]; intros acc Hv; [reflexivity |].
  cbn [lower] in Hv. apply valid_chars_cons in Hv as [Hc Hs].
  cbn [lower decode_chars].
  destruct (alphabet_code _ Hc) as (-> & _).
  destruct (_ =? -1)%Z; [reflexivity |]. apply IH, Hs.
Qed.

Lemma isTid_valid (s : string) : isTid s = true <-> valid_tid (lower s).
Proof.
  unfold isTid, valid_tid. rewrite lower_length.
  destruct (Nat.eqb_spec (String.length s) 13) as [E | E]; simpl.
  - rewrite forallb_valid. tauto.
  - split; [discriminate | tauto].
Qed.

(** X12. [isTid] accepts exactly the strings whose lower-case form is 13
    characters of the alphabet, and on every string it accepts [tidToDate]
    returns a date (never [null]): the one of the lower-case form, its time
    between 0 and 2^55 / 1000 milliseconds, inside the range of valid
    dates. *)
Theorem isTid_tidToDate (s : string) :
  (isTid s = true <-> valid_tid (lower s)) /\
  (isTid s = true ->
   exists ms, tidToDate s = Some ms /\
              tidToDate (lower s) = Some ms /\
              ms = base32 (substring 0 11 (lower s)) / 1000 /\
              0 <= ms <= 36028797018963).
Proof.
  split; [apply isTid_valid |].
  intros H. apply isTid_valid in H.
  pose proof (tidToDate_value _ H) as Hl.
  destruct H as [Hlen Hv]. rewrite lower_length in Hlen.
  exists (base32 (substring 0 11 (lower s)) / 1000).
  split; [| split; [exact Hl | split; [reflexivity |]]].
  - rewrite <- Hl. unfold tidToDate.
    rewrite lower_length, Hlen.
    destruct s as [| c s]; [discriminate Hlen |].
    change (String c s =? "") with false.
    change (lower (String c s) =? "") with false.
    cbv beta iota. simpl orb. cbv iota.
    rewrite lower_substring.
    rewrite decode_chars_lower; [reflexivity |].
    rewrite <- lower_substring. apply substring_valid, Hv.
  - pose proof (substring_valid 11 _ Hv) as Hv11.
    pose proof (base32_range _ Hv11) as Hr.
    rewrite substring_length in Hr by (rewrite lower_length; lia).
    change (32 ^ Z.of_nat 11) with 36028797018963968 in Hr.
    split; [apply Z.div_pos; lia |].
    apply Z.lt_succ_r, Z.div_lt_upper_bound; lia.
Qed.

Lemma isTid_tidToDate_witness :
  isTid "3JZFCIJPJ2Z2A" = true /\
  exists ms, tidToDate "3JZFCIJPJ2Z2A" = Some ms /\
             tidToDate (lower "3JZFCIJPJ2Z2A") = Some ms /\
             ms = base32 (substring 0 11 (lower "3JZFCIJPJ2Z2A")) / 1000 /\
             0 <= ms <= 36028797018963.
Proof.
  assert (H : isTid "3JZFCIJPJ2Z2A" = true) by reflexivity.
  split; [exact H |].
  destruct (isTid_tidToDate "3JZFCIJPJ2Z2A") as [_ Hd].
  exact (Hd H).
Defined.

End TidCaseTheory.

(** ** Commit events *)
Module CommitTheory.
Import JsValue Commit StrTheory.
Local Open Scope string_scope.

Lemma get_not_nullish (v : value) (name : string) :
  ~ nullish v -> exists x, get v name = Ok x.
Proof.
  unfold nullish. destruct v; simpl; intros H; eauto; exfalso; tauto.
Qed.

Lemma valid_action_elem (a : value) (s : string) :
  valid_action a = Some s ->
  a = Str s /\ s ∈ ["create"; "update"; "delete"].
Proof.
  destruct a as [| | | | t | | |]; try discriminate. simpl.
  destruct (String.eqb_spec t "create") as [-> | _];
    [intros [= <-]; split; [reflexivity | set_solver] |].
  destruct (String.eqb_spec t "update") as [-> | _];
    [intros [= <-]; split; [reflexivity | set_solver] |].
  destruct (String.eqb_spec t "delete") as [-> | _];
    [intros [= <-]; split; [reflexivity | set_solver] |].
  discriminate.
Qed.

Lemma parse_op_nullish (op : value) : nullish op -> parse_op op = Thrown.
Proof. intros [-> | ->]; reflexivity. Qed.

Lemma parse_op_ok (op : value) :
  ~ nullish op ->
  exists o, parse_op op = Ok o /\ action <$> o = kept_action op.
Proof.
  intros H. unfold parse_op, kept_action.
  destruct (get_not_nullish op "action" H) as [a ->].
  destruct (get_not_nullish op "path" H) as [p Hp].
  destruct (get_not_nullish op "cid" H) as [c Hc].
  cbn. destruct (valid_action a) as [s |].
  - rewrite Hp. cbn. rewrite Hc. cbn. eexists; split; reflexivity.
  - eexists; split; reflexivity.
Qed.

Lemma parse_ops_thrown (elems : list value) :
  Exists nullish elems -> parse_ops elems = Thrown.
Proof.
  induction 1 as [op rest H | op rest _ IH]; cbn [parse_ops].
  - rewrite (parse_op_nullish op H). reflexivity.
  - destruct (parse_op op); cbn; [| reflexivity].
    rewrite IH. reflexivity.
Qed.

Lemma nullish_dec (v : value) : nullish v \/ ~ nullish v.
Proof.
  unfold nullish.
  destruct v; (left; tauto) || (right; intros [? | ?]; discriminate).
Qed.

Lemma parse_ops_ok (elems : list value) :
  ~ Exists nullish elems ->
  exists r, parse_ops elems = Ok r /\
            action <$> r = omap kept_action elems.
Proof.
  induction elems as [| op rest IH]; intros H.
  - exists []. split; reflexivity.
  - destruct (parse_op_ok op) as (o & Ho & Ha).
    { intros N. apply H. left. exact N. }
    destruct IH as (r & Hr & Hm).
    { intros N. apply H. right. exact N. }
    cbn [parse_ops]. rewrite Ho. cbn. rewrite Hr. cbn.
    eexists. split; [reflexivity |].
    cbn [omap list_omap]. rewrite <- Ha, <- Hm.
    destruct o; reflexivity.
Qed.

Lemma parse_ops_cases (elems : list value) :
  (Exists nullish elems /\ parse_ops elems = Thrown) \/
  (~ Exists nullish elems /\
   exists r, parse_ops elems = Ok r /\
             action <$> r = omap kept_action elems).
Proof.
  assert (D : Exists nullish elems \/ ~ Exists nullish elems).
  { induction elems as [| v rest [IH | IH]].
    - right. intros H. inversion H.
    - left. right. exact IH.
    - destruct (nullish_dec v) as [N | N].
      + left. left. exact N.
      + right. intros H. inversion H; tauto. }
  destruct D as [D | D].
  - left. split; [exact D | apply parse_ops_thrown, D].
  - right. split; [exact D | apply parse_ops_ok, D].
Qed.

Lemma kept_action_elem (elems : list value) :
  Forall (fun a => a ∈ ["create"; "update"; "delete"])
         (omap kept_action elems).
Proof.
  induction elems as [| v rest IH]; cbn [omap list_omap]; [constructor |].
  destruct (kept_action v) as [s |] eqn:E; [| exact IH].
  constructor; [| exact IH].
  unfold kept_action in E. destruct (get v "action"); [| discriminate].
  apply valid_action_elem in E. tauto.
Qed.

(** The parser on an object that has [repo], by the outcome of the loop. *)
Lemma parseCommitEvent_object (now_iso : string)
    (props : list (string * value)) :
  is_Some (own props "repo") ->
  parseCommitEvent now_iso (Obj props)
  = match default Undefined (own props "ops") with
    | Arr elems =>
        match parse_ops elems with
        | Ok r =>
            Ok (Some (mkCommit
                  (default Undefined (own props "repo"))
                  (or_else (default Undefined (own props "rev")) (Str ""))
                  (or_else (default Undefined (own props "seq")) (Num 0))
                  (or_else (default Undefined (own props "since")) Null)
                  (or_else (default Undefined (own props "time"))
                           (Str now_iso))
                  (or_else (default Undefined (own props "tooBig"))
                           (Bool false))
                  (or_else (default Undefined (own props "rebase"))
                           (Bool false))
                  (default Undefined (own props "blocks"))
                  r))
        | Thrown => Thrown
        end
    | _ =>
        Ok (Some (mkCommit
              (default Undefined (own props "repo"))
              (or_else (default Undefined (own props "rev")) (Str ""))
              (or_else (default Undefined (own props "seq")) (Num 0))
              (or_else (default Undefined (own props "since")) Null)
              (or_else (default Undefined (own props "time")) (Str now_iso))
              (or_else (default Undefined (own props "tooBig"))
                       (Bool false))
              (or_else (default Undefined (own props "rebase"))
                       (Bool false))
              (default Undefined (own props "blocks"))
              []))
    end.
Proof.
  intros H. unfold parseCommitEvent, has.
  rewrite bool_decide_eq_true_2 by exact H.
  cbn [truthy typeof negb orb String.eqb Ascii.eqb Bool.eqb get].
  change ("object" =? "object") with true. cbn [negb orb].
  cbn [mbind attempt_bind andThen].
  destruct (default Undefined (own props "ops")); reflexivity.
Qed.

Lemma parseCommitEvent_no_repo (now_iso : string) (body : value) :
  has body "repo" = false -> parseCommitEvent now_iso body = Ok None.
Proof.
  intros H. unfold parseCommitEvent. rewrite H.
  destruct (negb (truthy body) || negb (typeof body =? "object"));
    reflexivity.
Qed.

(** X13. [parseCommitEvent] returns [null] exactly when the body is not an
    object with a [repo] property (whatever its value); it throws exactly
    when the body has [repo] and its [ops] is an array with a [null] or
    [undefined] element; otherwise it returns a commit whose [repo] is the
    body's and whose operations are the elements of [ops] with action
    [create], [update] or [delete], in order (none when [ops] is not an
    array). *)
Theorem parseCommitEvent_cases (now_iso : string) (body : value) :
  (parseCommitEvent now_iso body = Ok None <-> has body "repo" = false) /\
  (parseCommitEvent now_iso body = Thrown <->
   has body "repo" = true /\
   exists elems, get body "ops" = Ok (Arr elems) /\ Exists nullish elems) /\
  (forall commit,
     parseCommitEvent now_iso body = Ok (Some commit) ->
     get body "repo" = Ok (repo commit) /\
     Forall (fun op => action op ∈ ["create"; "update"; "delete"])
            (ops commit) /\
     (forall elems, get body "ops" = Ok (Arr elems) ->
                    action <$> ops commit = omap kept_action elems) /\
     ((forall elems, get body "ops" <> Ok (Arr elems)) ->
      ops commit = [])).
Proof.
  destruct (has body "repo") eqn:Hh.
  - destruct body as [| | b | q | s | l | props | bs]; try discriminate Hh.
    assert (Hs : is_Some (own props "repo")).
    { unfold has in Hh. apply bool_decide_eq_true_1 in Hh. exact Hh. }
    pose proof (parseCommitEvent_object now_iso props Hs) as E.
    destruct Hs as [r R]. cbn [get]. rewrite R. cbn [default].
    destruct (default Undefined (own props "ops")) eqn:O;
      try (rewrite E; split; [split; discriminate |];
           split; [split; [discriminate |];
                   intros (_ & elems & [=] & _) |];
           intros commit [= <-]; cbn [repo ops];
           rewrite R; split; [reflexivity |];
           split; [constructor |];
           split; [intros elems [=] | reflexivity]).
    destruct (parse_ops_cases elems) as [[N T] | (N & res & T & A)];
      rewrite T in E; rewrite E.
    + split; [split; discriminate |].
      split; [split; [intros _; split; [reflexivity |]; eauto | reflexivity] |].
      intros commit [=].
    + split; [split; discriminate |].
      split; [split; [discriminate |];
              intros (_ & elems' & [= <-] & N'); contradiction |].
      intros commit [= <-]. cbn [repo ops]. rewrite R.
      split; [reflexivity |].
      split.
      * pose proof (kept_action_elem elems) as F. rewrite <- A in F.
        apply Forall_fmap in F. exact F.
      * split; [intros elems' [= <-]; exact A |].
        intros H. exfalso. apply (H elems). reflexivity.
  - rewrite (parseCommitEvent_no_repo now_iso body Hh).
    split; [tauto |].
    split; [split; [discriminate | intros [? _]; discriminate] |].
    intros commit [=].
Qed.

Lemma parseCommitEvent_cases_witness :
  exists commit,
    parseCommitEvent "2024-01-01T00:00:00.000Z" sample_body
    = Ok (Some commit) /\
    action <$> ops commit = ["create"].
Proof.
  eexists. split; [reflexivity |].
  destruct (parseCommitEvent_cases "2024-01-01T00:00:00.000Z" sample_body)
    as (_ & _ & H).
  destruct (H _ eq_refl) as (_ & _ & A & _).
  exact (A _ eq_refl).
Defined.

Lemma navigable_path (op : FirehoseCommitOp string)
    (collection rkey : string) :
  action op <> "delete" ->
  Str.split "/" (path op) !! 0%nat = Some collection ->
  Str.split "/" (path op) !! 1%nat = Some rkey ->
  navigable op = true.
Proof.
  intros Ha H0 H1. unfold navigable.
  destruct (String.eqb_spec (action op) "delete") as [E | _];
    [contradiction |].
  destruct (Str.split "/" (path op)) as [| a [| b rest]] eqn:S;
    try discriminate.
  apply split_two in S as (_ & _ & tail & -> & _).
  rewrite includes_app. reflexivity.
Qed.

(** X14. When [getOperationNavigationPath] returns a path for an operation
    of a commit, [hasNavigableOps] holds of the commit, the operation is
    not a deletion, its path starts with a collection and a record key,
    both non-empty and without a slash, followed by nothing or by a slash
    and more, and the result is [/at/repo/collection/rkey]. Conversely it
    returns that path for every operation that is not a deletion and whose
    path is [collection/rkey]. *)
Theorem navigation_path (repo : string) (commit : FirehoseCommitEvent string)
    (op : FirehoseCommitOp string) :
  (forall p,
     op ∈ ops commit ->
     getOperationNavigationPath repo op = Some p ->
     hasNavigableOps commit = true /\
     action op <> "delete" /\
     exists collection rkey tail,
       path op = collection ++ "/" ++ rkey ++ tail /\
       AtUri.segment collection /\ AtUri.segment rkey /\
       (tail = "" \/ exists t, tail = "/" ++ t) /\
       p = "/at/" ++ repo ++ "/" ++ collection ++ "/" ++ rkey) /\
  (forall collection rkey,
     action op <> "delete" ->
     AtUri.segment collection -> AtUri.segment rkey ->
     path op = collection ++ "/" ++ rkey ->
     getOperationNavigationPath repo op
     = Some ("/at/" ++ repo ++ "/" ++ collection ++ "/" ++ rkey)).
Proof.
  split.
  - intros p Hin. unfold getOperationNavigationPath.
    destruct (String.eqb_spec (action op) "delete") as [E | Ha];
      [discriminate |].
    destruct (Str.split "/" (path op) !! 0%nat) as [collection |] eqn:H0;
      [| discriminate].
    destruct (Str.split "/" (path op) !! 1%nat) as [rkey |] eqn:H1;
      [| discriminate].
    destruct (Str.empty collection) eqn:Ec; [discriminate |].
    destruct (Str.empty rkey) eqn:Er; [discriminate |].
    intros [= <-].
    split.
    { unfold hasNavigableOps. apply existsb_exists. exists op.
      split; [apply list_elem_of_In, Hin |].
      exact (navigable_path op collection rkey Ha H0 H1). }
    split; [exact Ha |].
    destruct (Str.split "/" (path op)) as [| a [| b rest]] eqn:S;
      try discriminate.
    injection H0 as ->. injection H1 as ->.
    apply split_two in S as (Hc & Hr & tail & Hp & Ht).
    exists collection, rkey, tail.
    split; [exact Hp |].
    split; [split; assumption |].
    split; [split; assumption |].
    split; [exact Ht | reflexivity].
  - intros collection rkey Ha [Ec Hc] [Er Hr] Hp.
    unfold getOperationNavigationPath.
    destruct (String.eqb_spec (action op) "delete") as [E | _];
      [contradiction |].
    rewrite Hp.
    change (collection ++ "/" ++ rkey) with (collection ++ String "/" rkey).
    rewrite split_app by exact Hc. rewrite split_plain by exact Hr.
    cbn. rewrite Ec, Er. reflexivity.
Qed.

Lemma navigation_path_witness :
  hasNavigableOps sample_commit = true /\
  getOperationNavigationPath "did:plc:a" sample_op
  = Some "/at/did:plc:a/app.bsky.feed.post/3k".
Proof.
  destruct (navigation_path "did:plc:a" sample_commit sample_op)
    as [Hfwd Hbwd].
  assert (Hp : getOperationNavigationPath "did:plc:a" sample_op
               = Some "/at/did:plc:a/app.bsky.feed.post/3k").
  { apply (Hbwd "app.bsky.feed.post" "3k").
    - discriminate.
    - split; reflexivity.
    - split; reflexivity.
    - reflexivity. }
  split; [| exact Hp].
  apply (Hfwd _ ltac:(left) Hp).
Defined.

Lemma part_or_empty_plain (s : string) (i : nat) :
  Str.includes "/" (part_or_empty (Str.split "/" s) i) = false.
Proof.
  unfold part_or_empty.
  destruct (Str.split "/" s !! i) as [p |] eqn:E; [| reflexivity].
  exact (split_lookup _ _ _ _ E).
Qed.

Lemma join_with_first (sep : string) (c : ascii) (s : string)
    (rest : list string) :
  exists t, join_with sep (String c s :: rest) = String c t.
Proof. destruct rest; simpl; eauto. Qed.

(** X15. [formatCommitEvent] lists one operation per operation of the
    commit, in order and with the same action, whose collection and record
    key hold no slash; for a path [collection/rkey] they are these two. The
    summary is "No operations" for a commit without operations, and for a
    commit whose actions are [create], [update] or [delete] only then. *)
Theorem formatCommitEvent_operations (commit : FirehoseCommitEvent string) :
  let operations := snd (formatCommitEvent commit) in
  let summary := fst (formatCommitEvent commit) in
  op_action <$> operations = action <$> ops commit /\
  Forall (fun o => Str.includes "/" (collection o) = false /\
                   Str.includes "/" (rkey o) = false) operations /\
  (forall i op c r,
     ops commit !! i = Some op ->
     AtUri.segment c -> AtUri.segment r -> path op = c ++ "/" ++ r ->
     operations !! i = Some (mkOperation (action op) c r)) /\
  (ops commit = [] -> summary = "No operations") /\
  (Forall (fun op => action op ∈ ["create"; "update"; "delete"])
          (ops commit) ->
   summary = "No operations" -> ops commit = []).
Proof.
  cbn zeta. unfold formatCommitEvent. cbn [fst snd].
  split; [| split; [| split; [| split]]].
  - unfold operations_of. rewrite <- list_fmap_compose. reflexivity.
  - unfold operations_of. apply Forall_fmap, Forall_forall.
    intros op _. cbn. split; apply part_or_empty_plain.
  - intros i op c r Hi [_ Hc] [_ Hr] Hp.
    unfold operations_of. rewrite list_lookup_fmap, Hi. cbn.
    rewrite Hp.
    change (c ++ "/" ++ r) with (c ++ String "/" r).
    rewrite split_app by exact Hc. rewrite split_plain by exact Hr.
    reflexivity.
  - intros ->. reflexivity.
  - intros F. destruct (ops commit) as [| op rest]; [reflexivity |].
    apply Forall_cons in F as [Ha _]. intros H. exfalso.
    cbn [operations_of map op_action] in H.
    assert (Hc : exists c s, action op = String c s /\ c <> "N"%char).
    { repeat (apply elem_of_cons in Ha as [-> | Ha];
              [eexists _, _; split; [reflexivity | discriminate] |]).
      inversion Ha. }
    destruct Hc as (c & s & E & Hne). rewrite E in H.
    match type of H with
    | context [join_with ?sep ((String c s ++ ?x) :: ?l)] =>
        change (String c s ++ x) with (String c (s ++ x)) in H;
        destruct (join_with_first sep c (s ++ x) l) as [t Ht];
        rewrite Ht in H
    end.
    cbn in H. injection H as H _. contradiction.
Qed.

Lemma formatCommitEvent_operations_witness :
  snd (formatCommitEvent sample_commit) !! 0%nat
  = Some (mkOperation "create" "app.bsky.feed.post" "3k").
Proof.
  destruct (formatCommitEvent_operations sample_commit)
    as (_ & _ & H & _).
  apply (H 0%nat sample_op "app.bsky.feed.post" "3k").
  - reflexivity.
  - split; reflexivity.
  - split; reflexivity.
  - reflexivity.
Defined.

End CommitTheory.

(** ** Grouping of labels *)
Module LabelsTheory.
Import Labels JsMapTheory.

Lemma get_set_eq {E : Type} (m : JsMap.t string E) (key : string) (e : E) :
  JsMap.get (JsMap.set m key e) key = Some e.
Proof.
  induction m as [| [k x] m IH]; simpl.
  - destruct (decide (key = key)); [reflexivity | contradiction].
  - destruct (decide (k = key)) as [-> | Hne]; simpl.
    + destruct (decide (key = key)); [reflexivity | contradiction].
    + destruct (decide (k = key)); [contradiction | exact IH].
Qed.

Lemma get_set_ne {E : Type} (m : JsMap.t string E) (key k : string)
    (e : E) :
  k <> key -> JsMap.get (JsMap.set m key e) k = JsMap.get m k.
Proof.
  intros Hk. induction m as [| [k' x] m IH]; simpl.
  - destruct (decide (key = k)); [congruence | reflexivity].
  - destruct (decide (k' = key)) as [-> | Hne]; simpl.
    + destruct (decide (key = k)); [congruence | reflexivity].
    + destruct (decide (k' = k)); [reflexivity | exact IH].
Qed.

Lemma keys_set {E : Type} (m : JsMap.t string E) (key : string) (e : E) :
  JsMap.keys (JsMap.set m key e)
  = if decide (key ∈ JsMap.keys m) then JsMap.keys m
    else JsMap.keys m ++ [key].
Proof.
  induction m as [| [k x] m IH]; simpl.
  - destruct (decide (key ∈ [])) as [Hin | _]; [| reflexivity].
    apply elem_of_nil in Hin. contradiction.
  - destruct (decide (k = key)) as [-> | Hne]; simpl.
    + destruct (decide (key ∈ key :: JsMap.keys m)) as [_ | Hn];
        [reflexivity |].
      exfalso. apply Hn. left.
    + unfold JsMap.keys in *. rewrite IH.
      destruct (decide (key ∈ fst <$> m)) as [Hin | Hn];
        destruct (decide (key ∈ k :: (fst <$> m))) as [Hin' | Hn'];
        try reflexivity.
      * exfalso. apply Hn'. right. exact Hin.
      * apply elem_of_cons in Hin' as [-> | Hin']; contradiction.
Qed.

Lemma group_by_snoc (key : Label -> string) (labels : list Label)
    (label : Label) :
  group_by key (labels ++ [label])
  = group_step key (group_by key labels) label.
Proof. exact (fold_left_app (group_step key) labels [label] []). Qed.

Lemma first_occurrences_snoc (l : list string) (x : string) :
  first_occurrences (l ++ [x])
  = if decide (x ∈ first_occurrences l) then first_occurrences l
    else first_occurrences l ++ [x].
Proof.
  exact (fold_left_app
           (fun seen y => if decide (y ∈ seen) then seen else seen ++ [y])
           l [x] []).
Qed.

Lemma first_occurrences_NoDup (l : list string) :
  NoDup (first_occurrences l).
Proof.
  induction l as [| x l IH] using rev_ind; [constructor |].
  rewrite first_occurrences_snoc.
  destruct (decide (x ∈ first_occurrences l)) as [_ | Hn]; [exact IH |].
  apply NoDup_app. split; [exact IH |]. split.
  - intros y Hy Hx. apply list_elem_of_singleton in Hx as ->. contradiction.
  - apply NoDup_singleton.
Qed.

Lemma non_empty_snoc (g : list Label) (label : Label) :
  non_empty (g ++ [label]) = Some (g ++ [label]).
Proof. destruct g; reflexivity. Qed.

Lemma group_by_spec (key : Label -> string) (labels : list Label) :
  (forall s, JsMap.get (group_by key labels) s
             = non_empty (filter (fun l => key l = s) labels)) /\
  JsMap.keys (group_by key labels) = first_occurrences (key <$> labels).
Proof.
  induction labels as [| label labels [IHg IHk]] using rev_ind.
  - split; reflexivity.
  - rewrite group_by_snoc. unfold group_step. split.
    + intros s. rewrite filter_app, filter_cons, filter_nil.
      destruct (decide (key label = s)) as [<- | Hne].
      * rewrite get_set_eq, IHg, non_empty_snoc. f_equal. f_equal.
        destruct (filter _ labels); reflexivity.
      * rewrite get_set_ne by congruence. rewrite app_nil_r. apply IHg.
    + rewrite keys_set, IHk, fmap_app.
      change (key <$> [label]) with [key label].
      rewrite first_occurrences_snoc. reflexivity.
Qed.

(** X16. [groupLabelsBySource] and [groupLabelsBySubject] file every label
    under its source, or its subject: the group of a key is the list of the
    labels with that key, in their order in the input, a key without a
    label has no group, and the keys of the result are the distinct keys in
    the order of their first occurrence. *)
Theorem groupLabels_groups (labels : list Label) (s : string) :
  JsMap.get (groupLabelsBySource labels) s
  = non_empty (filter (fun l => src l = s) labels) /\
  JsMap.get (groupLabelsBySubject labels) s
  = non_empty (filter (fun l => uri l = s) labels) /\
  JsMap.keys (groupLabelsBySource labels) = first_occurrences (src <$> labels)
  /\
  JsMap.keys (groupLabelsBySubject labels)
  = first_occurrences (uri <$> labels) /\
  NoDup (JsMap.keys (groupLabelsBySource labels)) /\
  NoDup (JsMap.keys (groupLabelsBySubject labels)).
Proof.
  unfold groupLabelsBySource, groupLabelsBySubject.
  destruct (group_by_spec src labels) as [G1 K1].
  destruct (group_by_spec uri labels) as [G2 K2].
  rewrite K1, K2.
  repeat split; try apply G1; try apply G2; apply first_occurrences_NoDup.
Qed.

End LabelsTheory.

(** ** Truncation *)
Module FormatTheory.
Import Format StrTheory.
Local Open Scope string_scope.

Lemma length_app (a b : string) :
  String.length (a ++ b) = (String.length a + String.length b)%nat.
Proof.
  induction a as [| c a IH]; [reflexivity |].
  change (S (String.length (a ++ b))
          = S (String.length a + String.length b)).
  rewrite IH. reflexivity.
Qed.

Lemma length_substring (n m : nat) (s : string) :
  String.length (substring n m s) = Nat.min m (String.length s - n).
Proof.
  revert n m. induction s as [| c s IH]; intros n m.
  - destruct n, m; reflexivity.
  - destruct n as [| n].
    + destruct m as [| m]; [reflexivity |].
      cbn [substring String.length]. rewrite IH.
      rewrite Nat.sub_0_r. reflexivity.
    + cbn [substring String.length]. rewrite IH. reflexivity.
Qed.

Lemma prefix_substring (m : nat) (s : string) :
  String.prefix (substring 0 m s) s = true.
Proof.
  revert m. induction s as [| c s IH]; intros [| m]; try reflexivity.
  cbn [substring String.prefix].
  destruct (ascii_dec c c); [apply IH | contradiction].
Qed.

Lemma slice_prefix (s : string) (n : Z) :
  0 <= n <= Z.of_nat (String.length s) ->
  slice s 0 n = substring 0 (Z.to_nat n) s.
Proof.
  intros H. unfold slice, clamp.
  destruct (Z.ltb_spec 0 0); [lia |].
  destruct (Z.ltb_spec n 0); [lia |].
  rewrite Z.min_l by lia. rewrite Z.min_l by lia.
  rewrite Z.sub_0_r. reflexivity.
Qed.

Lemma slice_suffix (s : string) (n : Z) :
  0 < n <= Z.of_nat (String.length s) ->
  slice_from s (- n)
  = substring (String.length s - Z.to_nat n) (Z.to_nat n) s.
Proof.
  intros H. unfold slice_from, slice, clamp.
  destruct (Z.ltb_spec (- n) 0); [| lia].
  destruct (Z.ltb_spec (Z.of_nat (String.length s)) 0); [lia |].
  rewrite Z.max_l by lia. rewrite Z.min_l by lia.
  f_equal; lia.
Qed.

(** X17. For a limit of at least 3, [truncate] never returns more than
    [length] characters: a string within the limit is returned as it is,
    and a longer one is cut to its first [length - 3] characters followed
    by three dots, [length] characters in all. *)
Theorem truncate_fits (str : string) (length : Z) :
  3 <= length ->
  Z.of_nat (String.length (truncate str length)) <= length /\
  (Z.of_nat (String.length str) <= length -> truncate str length = str) /\
  (length < Z.of_nat (String.length str) ->
   truncate str length
   = substring 0 (Z.to_nat (length - 3)) str ++ "..." /\
   Z.of_nat (String.length (truncate str length)) = length).
Proof.
  intros H3. unfold truncate.
  destruct str as [| c str]; [cbn; repeat split; lia || reflexivity |].
  cbn [Str.empty].
  set (s := String c str).
  destruct (Z.leb_spec (Z.of_nat (String.length s)) length) as [Hle | Hgt].
  - split; [exact Hle |]. split; [reflexivity | lia].
  - rewrite slice_prefix by lia.
    assert (L : Z.of_nat (String.length
                  (substring 0 (Z.to_nat (length - 3)) s ++ "...")) = length).
    { rewrite length_app, length_substring. cbn [String.length]. lia. }
    split; [lia |]. split; [lia |]. intros _. split; [reflexivity | exact L].
Qed.

Lemma truncate_fits_witness :
  3 <= 8 /\ truncate "alice.bsky.social" 8 = "alice...".
Proof.
  split; [lia |].
  destruct (truncate_fits "alice.bsky.social" 8) as (_ & _ & H); [lia |].
  destruct H as [H _]; [simpl; lia |]. exact H.
Defined.

(** X18. For a limit of at least 23, and so for the default of 24,
    [truncateDid] never returns more than [maxLength] characters: a DID
    within the limit is returned as it is, and a longer one becomes its
    first 12 characters, three dots and its last 8 characters, 23 in
    all. *)
Theorem truncateDid_fits (did : string) (maxLength : Z) :
  23 <= maxLength ->
  Z.of_nat (String.length (truncateDid did maxLength)) <= maxLength /\
  (Z.of_nat (String.length did) <= maxLength ->
   truncateDid did maxLength = did) /\
  (maxLength < Z.of_nat (String.length did) ->
   truncateDid did maxLength
   = substring 0 12 did ++ "..."
     ++ substring (String.length did - 8) 8 did /\
   String.length (truncateDid did maxLength) = 23%nat) /\
  Z.of_nat (String.length (truncateDid_default did)) <= 24.
Proof.
  assert (G : forall m, 23 <= m ->
    Z.of_nat (String.length (truncateDid did m)) <= m /\
    (Z.of_nat (String.length did) <= m -> truncateDid did m = did) /\
    (m < Z.of_nat (String.length did) ->
     truncateDid did m
     = substring 0 12 did ++ "..."
       ++ substring (String.length did - 8) 8 did /\
     String.length (truncateDid did m) = 23%nat)).
  { intros m Hm. unfold truncateDid.
    destruct (Z.leb_spec (Z.of_nat (String.length did)) m) as [Hle | Hgt].
    - split; [exact Hle |]. split; [reflexivity | lia].
    - rewrite slice_prefix by lia.
      change (slice_from did (-8)) with (slice_from did (Z.opp 8)).
      rewrite (slice_suffix did 8) by lia.
      change (Z.to_nat 12) with 12%nat. change (Z.to_nat 8) with 8%nat.
      assert (L : String.length
                    (substring 0 12 did ++ "..."
                     ++ substring (String.length did - 8) 8 did) = 23%nat).
      { rewrite !length_app, !length_substring. cbn [String.length]. lia. }
      split; [lia |]. split; [lia |]. intros _.
      split; [reflexivity | exact L]. }
  intros H. destruct (G maxLength H) as (H1 & H2 & H3).
  split; [exact H1 |]. split; [exact H2 |]. split; [exact H3 |].
  unfold truncateDid_default. apply (G 24). lia.
Qed.

Lemma truncateDid_fits_witness :
  23 <= 24 /\
  truncateDid "did:plc:ewvi7nxzyoun6zhxrhs64oiz" 24
  = "did:plc:ewvi...rhs64oiz" /\
  String.length (truncateDid "did:plc:ewvi7nxzyoun6zhxrhs64oiz" 24) = 23%nat.
Proof.
  split; [lia |].
  destruct (truncateDid_fits "did:plc:ewvi7nxzyoun6zhxrhs64oiz" 24)
    as (_ & _ & H & _); [lia |].
  destruct H as [H L]; [simpl; lia |].
  split; [exact H | exact L].
Defined.

End FormatTheory.

(** ** Hexadecimal text *)
Module HexTheory.
Import Hex Commit.
Local Open Scope string_scope.








End HexTheory.

(** ** Frames with a well-formed header *)
Module FramesTheory.
Import Js Cbor CborTheory Frames.




End FramesTheory.
